(** * motif-api: the RPC bridge and its DeFi settings aggregation

    A shallow embedding of
      - internal/repository/rpc/defi_settings.go
          (DefiConfiguration, pullSetOfDefiConfigValues, pullDefiConfigValue,
           pullDefiDecimalCorrection, AccountBalance, AccountNonce),
      - internal/graphql/resolvers/erc20.go (NewErc20Token),
      - internal/config/default.go (the default contract addresses),
    followed by the properties of that code.

    Conventions.  Each Go package is a module.  A Go pointer that may be nil
    is an [option]; a Go result [(value, error)] is a pair whose second
    component is an [option error] ([None] is the nil error); machine
    integers are [Z] with their wrap-around written out; a run that
    dereferences nil [Panics].  Logging through [ftm.log] has no influence
    on any returned value and is left out. *)

From Stdlib Require Import ZArith String Ascii List Lia.
From stdpp Require Import base option list gmap.
From stdpp Require strings.
From Equations Require Import Equations.

Local Open Scope Z_scope.

(** ** Go values *)

Module Go.

(** The [error] interface, as far as this code can observe it: a value
    carrying its message ([errors.New], [fmt.Errorf]). *)
Inductive error : Type :=
| errorString (msg : string).

Definition Error (e : error) : string :=
  match e with errorString msg => msg end.

(** [fmt.Errorf] with a format that has no verbs. *)
Definition Errorf (msg : string) : error := errorString msg.

(** What a call does: it returns, or it panics on a nil dereference. *)
Inductive outcome (A : Type) : Type :=
| Returns (a : A)
| Panics.
Arguments Returns {A} a.
Arguments Panics {A}.

(** [int32] arithmetic wraps. *)
Definition wrap_int32 (x : Z) : Z := (x + 2 ^ 31) mod 2 ^ 32 - 2 ^ 31.

(** [Uint64] of math/big's [Int]: the low 64 bits of the magnitude of [x]
    (the library returns [low64] of [x.abs]). *)
Definition big_Uint64 (x : Z) : Z := Z.abs x mod 2 ^ 64.

(** [len] of a Go string, in bytes. *)
Definition len (s : string) : Z := Z.of_nat (String.length s).

End Go.
Export Go.

(** ** go-ethereum: common and common/hexutil

    These two packages are a dependency of the repository, not part of it;
    they are modelled after go-ethereum's sources, as far as the bridge
    uses them. *)

Module hexutil.

(** [hexutil.Big] is [big.Int] under another name; its zero value
    [hexutil.Big{}] is the integer 0. *)
Definition Big : Type := Z.
Definition Big_zero : Big := 0.
Definition ToInt (b : Big) : Z := b.

Definition dquote : string := String (ascii_of_nat 34) EmptyString.

Definition ErrEmptyString : error := errorString "empty hex string".
Definition ErrSyntax : error := errorString "invalid hex string".
Definition ErrMissingPrefix : error := errorString "hex string without 0x prefix".
Definition ErrEmptyNumber : error :=
  errorString ("hex string " ++ dquote ++ "0x" ++ dquote)%string.
Definition ErrLeadingZero : error :=
  errorString "hex number with leading zero digits".
Definition ErrUint64Range : error := errorString "hex number > 64 bits".
Definition ErrBig256Range : error := errorString "hex number > 256 bits".

(** [decodeNibble]: the value of a hexadecimal digit, either case. *)
Definition decodeNibble (c : ascii) : option Z :=
  let n := Z.of_nat (nat_of_ascii c) in
  if (48 <=? n) && (n <=? 57) then Some (n - 48)
  else if (65 <=? n) && (n <=? 70) then Some (n - 65 + 10)
  else if (97 <=? n) && (n <=? 102) then Some (n - 97 + 10)
  else None.

Definition has0xPrefix (input : string) : bool :=
  match input with
  | String "0" (String "x" _) => true
  | String "0" (String "X" _) => true
  | _ => false
  end.

(** [checkNumber]: the digits of a quantity, its prefix removed. *)
Definition checkNumber (input : string) : string * option error :=
  if len input =? 0 then (EmptyString, Some ErrEmptyString)
  else if negb (has0xPrefix input) then (EmptyString, Some ErrMissingPrefix)
  else
    let input := String.substring 2 (String.length input - 2) input in
    match input with
    | EmptyString => (EmptyString, Some ErrEmptyNumber)
    | String "0" (String _ _) => (EmptyString, Some ErrLeadingZero)
    | _ => (input, None)
    end.

(** [strconv.ParseUint(raw, 16, 64)] followed by [mapError]: the digits are
    read from the left; a character that is no digit is a syntax error, a
    digit that would carry the number past 64 bits a range error,
    whichever comes first. *)
Fixpoint parseUint16 (n : Z) (raw : string) : Z * option error :=
  match raw with
  | EmptyString => (n, None)
  | String c rest =>
      match decodeNibble c with
      | None => (0, Some ErrSyntax)
      | Some d =>
          if 2 ^ 60 <=? n then (2 ^ 64 - 1, Some ErrUint64Range)
          else parseUint16 (n * 16 + d) rest
      end
  end.

Definition DecodeUint64 (input : string) : Z * option error :=
  match checkNumber input with
  | (_, Some err) => (0, Some err)
  | (raw, None) => parseUint16 0 raw
  end.

(** The nibble loop of [DecodeBig]; the words it fills hold this number. *)
Fixpoint decodeNibbles (n : Z) (raw : string) : option Z :=
  match raw with
  | EmptyString => Some n
  | String c rest =>
      match decodeNibble c with
      | None => None
      | Some d => decodeNibbles (n * 16 + d) rest
      end
  end.

Definition DecodeBig (input : string) : option Z * option error :=
  match checkNumber input with
  | (_, Some err) => (None, Some err)
  | (raw, None) =>
      if 64 <? len raw then (None, Some ErrBig256Range)
      else
        match decodeNibbles 0 raw with
        | None => (None, Some ErrSyntax)
        | Some dec => (Some dec, None)
        end
  end.

End hexutil.

Module common.

(** [common.Address]: 20 bytes, read as a big-endian number below 2^160. *)
Definition Address : Type := Z.

(** [hex.DecodeString] with its error dropped, as [Hex2Bytes] does: the
    bytes decoded before the first pair that is not hexadecimal. *)
Fixpoint Hex2Bytes (acc : Z) (s : string) : Z :=
  match s with
  | String c1 (String c2 rest) =>
      match hexutil.decodeNibble c1, hexutil.decodeNibble c2 with
      | Some hi, Some lo => Hex2Bytes (acc * 256 + hi * 16 + lo) rest
      | _, _ => acc
      end
  | _ => acc
  end.

(** [FromHex]: drop the prefix, pad to an even length, decode. *)
Definition FromHex (s : string) : Z :=
  let s := if hexutil.has0xPrefix s
           then String.substring 2 (String.length s - 2) s else s in
  let s := if Nat.odd (String.length s) then String "0" s else s in
  Hex2Bytes 0 s.

(** [HexToAddress]: [BytesToAddress] keeps the last 20 bytes. *)
Definition HexToAddress (s : string) : Address := FromHex s mod 2 ^ 160.

End common.

(** ** internal/config/default.go *)

Module config.

Definition EmptyAddress : string := "0x0000000000000000000000000000000000000000".

Definition defSfcContract : string := "0xFC00FACE00000000000000000000000000000000".

Definition defStiContract : string := "0xbedcb01a0192e90cdae79227ccd5c8195b17d683".

Definition defDefiFMintAddressProvider : string :=
  "0x08aa8b88721853c62cc8192da8f24aeb94aaeb66".

Definition defDefiUniswapCore : string := EmptyAddress.

Definition defDefiUniswapRouter : string := EmptyAddress.

End config.

(** ** internal/types (declared outside the files at hand; the fields are
    those the code names) *)

Module types.

Record DefiSettings : Type := {
  FMintContract : common.Address;
  FMintAddressProvider : common.Address;
  FMintTokenRegistry : common.Address;
  FMintRewardDistribution : common.Address;
  FMintCollateralPool : common.Address;
  FMintDebtPool : common.Address;
  PriceOracleAggregate : common.Address;
  MintFee4 : hexutil.Big;
  MinCollateralRatio4 : hexutil.Big;
  RewardCollateralRatio4 : hexutil.Big;
  Decimals : Z
}.

Record Erc20Token : Type := {
  Address : common.Address
}.

End types.

(** ** internal/repository/rpc/contracts *)

Module contracts.

(** [bind.CallOpts], passed by pointer; the code only ever passes nil. *)
Inductive CallOpts : Type := mkCallOpts.

(** A generated contract getter: a Go function from a [bind.CallOpts]
    pointer to a [big.Int] pointer and an error.  The node's state is held
    fixed during one aggregation, so a getter is a function of its
    options. *)
Definition Loader : Type := option CallOpts -> option Z * option error.

(** [contracts.DefiFMintMinter]: the generated binding of the fMint minter
    contract, an opaque set of typed call stubs. *)
Record DefiFMintMinter : Type := {
  GetFMintFee4dec : Loader;
  GetCollateralLowestDebtRatio4dec : Loader;
  GetRewardEligibilityRatio4dec : Loader;
  FMintFeeDigitsCorrection : Loader
}.

End contracts.

(** ** internal/repository/rpc *)

Module rpc.
Import contracts.

(** [fMintConfig] is declared outside the files at hand.  DefiConfiguration
    reads it through two methods, taken here as they are called:
    [fMintMinterContract()] and [mustContractAddress(name)]; the field
    [addressProvider] is the configured address of the fMint address
    provider. *)
Record fMintConfig : Type := {
  addressProvider : common.Address;
  fMintMinterContract : option DefiFMintMinter * option error;
  mustContractAddress : string -> common.Address
}.

(** The client of the node: [Call(&result, method, args...)] leaves the
    decoded answer in [result] and returns an error. *)
Record Client : Type := {
  Call : string -> list string -> string * option error
}.

Record FtmBridge : Type := {
  rpc : Client;
  fMintCfg : fMintConfig
}.

(** *** pullDefiConfigValue *)

Definition pullDefiConfigValue (cf : Loader) : hexutil.Big * option error :=
  match cf None with
  | (_, Some err) => (hexutil.Big_zero, Some err)
  | (None, None) =>
      (hexutil.Big_zero, Some (Errorf "defi config value not available"))
  | (Some val, None) => (val, None)
  end.

(** *** The decimals loop of pullDefiDecimalCorrection

    [for value > 1 { value /= 10; dec++ }] with [value] a uint64 and [dec]
    an int32.  Unsigned division cannot overflow; the increment of [dec]
    wraps as an int32 does. *)

Equations? decimals_loop (value dec : Z) : Z
  by wf (Z.to_nat (Z.log2 value)) lt :=
  decimals_loop value dec with Z_lt_dec 1 value := {
    | left _ := decimals_loop (value / 10) (wrap_int32 (dec + 1));
    | right _ := dec }.
Proof.
  (* the bit length of the value drops with every division *)
  assert (Hhalf : Z.log2 (value / 10) <= Z.log2 (value / 2)).
  { apply Z.log2_le_mono.
    apply Z.div_le_compat_l; lia. }
  change 2 with (2 ^ 1) in Hhalf.
  rewrite <- Z.shiftr_div_pow2, Z.log2_shiftr in Hhalf by lia.
  assert (0 < Z.log2 value) by (apply Z.log2_pos; lia).
  lia.
Qed.

(** The same loop, one iteration at a time. *)
Record loop_state : Type := LoopState { value : Z; dec : Z }.

Definition loop_step (s : loop_state) : option loop_state :=
  if 1 <? value s
  then Some {| value := value s / 10; dec := wrap_int32 (dec s + 1) |}
  else None.

(** [loop_run fuel s] is the state in which the loop leaves, when it does so
    within [fuel] iterations. *)
Fixpoint loop_run (fuel : nat) (s : loop_state) : option loop_state :=
  match loop_step s with
  | None => Some s
  | Some s' =>
      match fuel with
      | O => None
      | S fuel' => loop_run fuel' s'
      end
  end.

(** *** pullDefiDecimalCorrection *)

Definition pullDefiDecimalCorrection (con : DefiFMintMinter) : Z * option error :=
  match pullDefiConfigValue (FMintFeeDigitsCorrection con) with
  | (_, Some err) => (0, Some err)
  | (val, None) => (decimals_loop (big_Uint64 (hexutil.ToInt val)) 0, None)
  end.

(** *** The loaders map *)

(** The keys of the loaders map are pointers to [hexutil.Big] fields of the
    record under construction: [&ds.MintFee4] and its siblings. *)
Inductive Slot : Type :=
| ref_MintFee4
| ref_MinCollateralRatio4
| ref_RewardCollateralRatio4.

#[global] Instance Slot_eq_dec : EqDecision Slot.
Proof. solve_decision. Defined.

#[global] Instance Slot_countable : Countable Slot.
Proof.
  refine (inj_countable'
            (fun s => match s with
                      | ref_MintFee4 => 0%nat
                      | ref_MinCollateralRatio4 => 1%nat
                      | ref_RewardCollateralRatio4 => 2%nat
                      end)
            (fun n => match n with
                      | 0%nat => ref_MintFee4
                      | 1%nat => ref_MinCollateralRatio4
                      | _ => ref_RewardCollateralRatio4
                      end) _).
  intros []; reflexivity.
Defined.

(** Reading and writing through such a pointer. *)
Definition load (ref : Slot) (ds : types.DefiSettings) : hexutil.Big :=
  match ref with
  | ref_MintFee4 => types.MintFee4 ds
  | ref_MinCollateralRatio4 => types.MinCollateralRatio4 ds
  | ref_RewardCollateralRatio4 => types.RewardCollateralRatio4 ds
  end.

Definition store (ref : Slot) (v : hexutil.Big) (ds : types.DefiSettings)
  : types.DefiSettings :=
  {| types.FMintContract := types.FMintContract ds;
     types.FMintAddressProvider := types.FMintAddressProvider ds;
     types.FMintTokenRegistry := types.FMintTokenRegistry ds;
     types.FMintRewardDistribution := types.FMintRewardDistribution ds;
     types.FMintCollateralPool := types.FMintCollateralPool ds;
     types.FMintDebtPool := types.FMintDebtPool ds;
     types.PriceOracleAggregate := types.PriceOracleAggregate ds;
     types.MintFee4 :=
       match ref with ref_MintFee4 => v | _ => types.MintFee4 ds end;
     types.MinCollateralRatio4 :=
       match ref with
       | ref_MinCollateralRatio4 => v
       | _ => types.MinCollateralRatio4 ds
       end;
     types.RewardCollateralRatio4 :=
       match ref with
       | ref_RewardCollateralRatio4 => v
       | _ => types.RewardCollateralRatio4 ds
       end;
     types.Decimals := types.Decimals ds |}.

Definition set_Decimals (d : Z) (ds : types.DefiSettings) : types.DefiSettings :=
  {| types.FMintContract := types.FMintContract ds;
     types.FMintAddressProvider := types.FMintAddressProvider ds;
     types.FMintTokenRegistry := types.FMintTokenRegistry ds;
     types.FMintRewardDistribution := types.FMintRewardDistribution ds;
     types.FMintCollateralPool := types.FMintCollateralPool ds;
     types.FMintDebtPool := types.FMintDebtPool ds;
     types.PriceOracleAggregate := types.PriceOracleAggregate ds;
     types.MintFee4 := types.MintFee4 ds;
     types.MinCollateralRatio4 := types.MinCollateralRatio4 ds;
     types.RewardCollateralRatio4 := types.RewardCollateralRatio4 ds;
     types.Decimals := d |}.

(** [tConfigItemsLoaders]: a Go map from slot pointers to loaders. *)
Abbreviation tConfigItemsLoaders := (gmap Slot Loader).

(** Go leaves the order in which [range] visits a map unspecified, and it
    may differ from one loop to the next.  A [MapRange] is one choice the
    runtime can make: some enumeration of every entry of the map, each
    entry once. *)
Record MapRange : Type := {
  range : tConfigItemsLoaders -> list (Slot * Loader);
  range_enumerates : forall m, range m ≡ₚ map_to_list m
}.

(** *** pullSetOfDefiConfigValues *)

(** The body of the [range] loop over the entries still to visit.  The
    assignment [*ref, err = ...] stores the value before the error is
    looked at, so a failing loader leaves the zero value in its slot. *)
Fixpoint pull_range (entries : list (Slot * Loader)) (ds : types.DefiSettings)
  : types.DefiSettings * option error :=
  match entries with
  | [] => (ds, None)
  | (ref, fn) :: rest =>
      let '(val, err) := pullDefiConfigValue fn in
      let ds' := store ref val ds in
      match err with
      | Some e => (ds', Some e)
      | None => pull_range rest ds'
      end
  end.

Definition pullSetOfDefiConfigValues (rt : MapRange)
    (loaders : tConfigItemsLoaders) (ds : types.DefiSettings)
  : types.DefiSettings * option error :=
  pull_range (range rt loaders) ds.

(** *** DefiConfiguration *)

(** The container as the composite literal builds it: seven addresses
    resolved by [mustContractAddress] from literals, every other field at
    its zero value. *)
Definition new_container (cfg : fMintConfig) : types.DefiSettings :=
  {| types.FMintContract :=
       mustContractAddress cfg "0x4acb55fe5f0b7c487edec3862079aa36ab054358";
     types.FMintAddressProvider :=
       mustContractAddress cfg "0xdeec401e448d5d9132eb79ac84eb3f212d7759fb";
     types.FMintTokenRegistry :=
       mustContractAddress cfg "0x60092e344c63c6628ec77926e508f9a9c80553ef";
     types.FMintRewardDistribution :=
       mustContractAddress cfg "0x0039597eb5aa5760e8db15fbe525e56aa661ef26";
     types.FMintCollateralPool :=
       mustContractAddress cfg "0x6d5f2f2e391f47a1075df4d39a24286c63c0e70c";
     types.FMintDebtPool :=
       mustContractAddress cfg "0xe2d1105f35649bf16deebccec1f2100dcb9aadf5";
     types.PriceOracleAggregate :=
       mustContractAddress cfg "0xA1EA42f737bb2E09b0AE4DE001eE06e3BC484fE5";
     types.MintFee4 := hexutil.Big_zero;
     types.MinCollateralRatio4 := hexutil.Big_zero;
     types.RewardCollateralRatio4 := hexutil.Big_zero;
     types.Decimals := 0 |}.

(** The map literal of DefiConfiguration. *)
Definition config_loaders (contract : DefiFMintMinter) : tConfigItemsLoaders :=
  list_to_map
    [ (ref_MintFee4, GetFMintFee4dec contract);
      (ref_MinCollateralRatio4, GetCollateralLowestDebtRatio4dec contract);
      (ref_RewardCollateralRatio4, GetRewardEligibilityRatio4dec contract) ].

Definition DefiConfiguration (rt : MapRange) (ftm : FtmBridge)
  : outcome (option types.DefiSettings * option error) :=
  match fMintMinterContract (fMintCfg ftm) with
  | (_, Some err) => Returns (None, Some err)
  | (None, None) => Panics
  | (Some contract, None) =>
      let ds := new_container (fMintCfg ftm) in
      let loaders := config_loaders contract in
      match pullSetOfDefiConfigValues rt loaders ds with
      | (_, Some err) => Returns (None, Some err)
      | (ds, None) =>
          match pullDefiDecimalCorrection contract with
          | (_, Some err) => Returns (None, Some err)
          | (decimals, None) => Returns (Some (set_Decimals decimals ds), None)
          end
      end
  end.

(** *** AccountBalance and AccountNonce *)

Section Accounts.

(** [addr.Hex()]: go-ethereum's checksummed rendering of an address.  It
    needs Keccak-256 and only feeds the request, so it stays abstract. *)
Variable Hex : common.Address -> string.

Definition AccountBalance (ftm : FtmBridge) (addr : common.Address)
  : option hexutil.Big * option error :=
  match Call (rpc ftm) "ftm_getBalance" [Hex addr; "latest"%string] with
  | (_, Some err) => (None, Some err)
  | (balance, None) =>
      match hexutil.DecodeBig balance with
      | (_, Some err) => (None, Some err)
      | (val, None) => (val, None)
      end
  end.

Definition AccountNonce (ftm : FtmBridge) (addr : common.Address)
  : Z * option error :=
  match Call (rpc ftm) "ftm_getTransactionCount" [Hex addr; "latest"%string] with
  | (_, Some err) => (0, Some err)
  | (nonce, None) =>
      match hexutil.DecodeUint64 nonce with
      | (_, Some err) => (0, Some err)
      | (val, None) => (val, None)
      end
  end.

End Accounts.

End rpc.

(** ** internal/repository *)

Module repository.

(** The repository behind the singleton [R()], declared outside the files
    at hand; of its interface, the method the token constructor calls. *)
Record Repository : Type := {
  Erc20Token : common.Address -> option types.Erc20Token * option error
}.

End repository.

(** ** internal/graphql/resolvers/erc20.go *)

Module resolvers.

(** [ERC20Token] embeds [types.Erc20Token]. *)
Record ERC20Token : Type := {
  Erc20Token : types.Erc20Token
}.

(** [NewErc20Token] returns one pointer and no error.  With [err == nil]
    and a nil token, [*erc20] is a nil dereference. *)
Definition NewErc20Token (R : repository.Repository) (adr : common.Address)
  : outcome (option ERC20Token) :=
  match repository.Erc20Token R adr with
  | (_, Some err) => Returns None
  | (None, None) => Panics
  | (Some erc20, None) => Returns (Some {| Erc20Token := erc20 |})
  end.

(** The resolver of the [erc20Token] query field. *)
Definition rootResolver_Erc20Token (R : repository.Repository)
    (Token : common.Address) : outcome (option ERC20Token) :=
  NewErc20Token R Token.

End resolvers.

(** ** Vocabulary of the properties *)

Module Props.
Import contracts rpc.

(** One division of the decimals loop. *)
Definition div10 (v : Z) : Z := v / 10.

(** [counts_divisions scale n]: dividing [scale] by ten again and again
    while it is greater than 1 takes exactly [n] divisions. *)
Definition counts_divisions (scale : Z) (n : nat) : Prop :=
  Nat.iter n div10 scale <= 1 /\
  forall k, (k < n)%nat -> 1 < Nat.iter k div10 scale.

(** A loader as pullDefiConfigValue sees it: it fails when the call reports
    an error or hands back nil. *)
Definition succeeds (fn : Loader) : Prop :=
  snd (pullDefiConfigValue fn) = None.

Definition fails (fn : Loader) : Prop :=
  snd (pullDefiConfigValue fn) <> None.

(** The error of the first failing loader of a sequence. *)
Fixpoint first_error (fns : list Loader) : option error :=
  match fns with
  | [] => None
  | fn :: rest =>
      match snd (pullDefiConfigValue fn) with
      | Some e => Some e
      | None => first_error rest
      end
  end.

(** The four getters of one aggregation, as declared. *)
Definition declared_loaders (contract : DefiFMintMinter) : list Loader :=
  [ GetFMintFee4dec contract;
    GetCollateralLowestDebtRatio4dec contract;
    GetRewardEligibilityRatio4dec contract;
    FMintFeeDigitsCorrection contract ].

(** The order in which one run of DefiConfiguration calls them: the loaders
    map as the runtime ranges over it, then the digits correction. *)
Definition visit_order (rt : MapRange) (contract : DefiFMintMinter)
  : list Loader :=
  map snd (range rt (config_loaders contract))
    ++ [FMintFeeDigitsCorrection contract].

(** A quantity on the wire: the prefix 0x or 0X, then at least one digit,
    all of them hexadecimal. *)
Fixpoint all_hex (s : string) : bool :=
  match s with
  | EmptyString => true
  | String c rest =>
      match hexutil.decodeNibble c with
      | Some _ => all_hex rest
      | None => false
      end
  end.

Definition is_hex_quantity (s : string) : bool :=
  hexutil.has0xPrefix s
  && (2 <? len s)
  && all_hex (String.substring 2 (String.length s - 2) s).

End Props.

(** ** Fixtures: stub getters, runtimes, bridges and repositories *)

Module Fixtures.
Import contracts rpc.

Definition returns_value (v : Z) : Loader := fun _ => (Some v, None).

Definition returns_error (msg : string) : Loader :=
  fun _ => (None, Some (errorString msg)).

Definition returns_nil : Loader := fun _ => (None, None).

(** Two runtimes: one ranges over a map in the order of [map_to_list], the
    other in the opposite order. *)
Definition rt_forward : MapRange :=
  {| range := map_to_list;
     range_enumerates := fun m => reflexivity (map_to_list m) |}.

Definition rt_backward : MapRange :=
  {| range := fun m => reverse (map_to_list m);
     range_enumerates := fun m => reverse_Permutation (map_to_list m) |}.

(** A minter whose digits correction is [scale] and whose ratios load. *)
Definition minter_with_correction (scale : Z) : DefiFMintMinter :=
  {| GetFMintFee4dec := returns_value 25;
     GetCollateralLowestDebtRatio4dec := returns_value 30000;
     GetRewardEligibilityRatio4dec := returns_value 50000;
     FMintFeeDigitsCorrection := returns_value scale |}.

(** A minter whose getters are given one by one. *)
Definition minter (fee low reward digits : Loader) : DefiFMintMinter :=
  {| GetFMintFee4dec := fee;
     GetCollateralLowestDebtRatio4dec := low;
     GetRewardEligibilityRatio4dec := reward;
     FMintFeeDigitsCorrection := digits |}.

(** The node answers every balance request with [balance] and every
    transaction count request with [nonce]. *)
Definition node (balance nonce : string) : Client :=
  {| Call := fun method _ =>
       if String.eqb method "ftm_getBalance" then (balance, None)
       else if String.eqb method "ftm_getTransactionCount" then (nonce, None)
       else (EmptyString, Some (errorString "the method does not exist")) |}.

(** A bridge configured with the default address provider, whose
    [mustContractAddress] reads its argument as the address. *)
Definition bridge (contract : DefiFMintMinter) : FtmBridge :=
  {| rpc := node "0x1b1ae4d6e2ef500000" "0x5";
     fMintCfg :=
       {| addressProvider :=
            common.HexToAddress config.defDefiFMintAddressProvider;
          fMintMinterContract := (Some contract, None);
          mustContractAddress := common.HexToAddress |} |}.

Definition bridge_on (cl : Client) : FtmBridge :=
  {| rpc := cl; fMintCfg := fMintCfg (bridge (minter_with_correction 10000)) |}.

(** A rendering of addresses for requests; the stub node does not look at
    the arguments of a call. *)
Definition Hex_stub (a : common.Address) : string := "0x".

(** Repositories: one knows a token at every address, the others fail the
    probe with a given error. *)
Definition repo_with_token : repository.Repository :=
  {| repository.Erc20Token := fun adr => (Some {| types.Address := adr |}, None) |}.

Definition repo_failing (msg : string) : repository.Repository :=
  {| repository.Erc20Token := fun _ => (None, Some (errorString msg)) |}.

End Fixtures.

(** ** internal/graphql/resolvers/erc20.go: the field resolvers *)

Module erc20.

(** [types.DefiTokenType], declared outside the files at hand; the two
    kinds the resolvers name. *)
Inductive DefiTokenType : Type :=
| DefiTokenTypeCollateral
| DefiTokenTypeDebt.

(** The methods of the repository the field resolvers call.  A spender is
    passed by pointer and may be nil. *)
Record Repository : Type := {
  Erc20TotalSupply : common.Address -> hexutil.Big * option error;
  Erc20BalanceOf :
    common.Address -> common.Address -> hexutil.Big * option error;
  Erc20Allowance :
    common.Address -> common.Address -> option common.Address
    -> hexutil.Big * option error;
  Erc20LogoURL : common.Address -> string;
  FMintTokenTotalBalance :
    common.Address -> DefiTokenType -> hexutil.Big * option error
}.

(** Resolvers of the root query; the arguments are the fields of [args]. *)
Definition ErcTotalSupply (R : Repository) (Token : common.Address)
  : hexutil.Big * option error :=
  Erc20TotalSupply R Token.

Definition ErcTokenBalance (R : Repository) (Owner Token : common.Address)
  : hexutil.Big * option error :=
  Erc20BalanceOf R Token Owner.

Definition ErcTokenAllowance (R : Repository)
    (Token Owner Spender : common.Address) : hexutil.Big * option error :=
  Erc20Allowance R Token Owner (Some Spender).

(** Resolvers of a token handle. *)
Definition TotalSupply (R : Repository) (token : resolvers.ERC20Token)
  : hexutil.Big * option error :=
  Erc20TotalSupply R (types.Address (resolvers.Erc20Token token)).

Definition BalanceOf (R : Repository) (token : resolvers.ERC20Token)
    (Owner : common.Address) : hexutil.Big * option error :=
  Erc20BalanceOf R (types.Address (resolvers.Erc20Token token)) Owner.

Definition Allowance (R : Repository) (token : resolvers.ERC20Token)
    (Owner Spender : common.Address) : hexutil.Big * option error :=
  Erc20Allowance R (types.Address (resolvers.Erc20Token token)) Owner
    (Some Spender).

Definition LogoURL (R : Repository) (token : resolvers.ERC20Token) : string :=
  Erc20LogoURL R (types.Address (resolvers.Erc20Token token)).

Definition TotalDeposit (R : Repository) (token : resolvers.ERC20Token)
  : hexutil.Big * option error :=
  FMintTokenTotalBalance R (types.Address (resolvers.Erc20Token token))
    DefiTokenTypeCollateral.

Definition TotalDebt (R : Repository) (token : resolvers.ERC20Token)
  : hexutil.Big * option error :=
  FMintTokenTotalBalance R (types.Address (resolvers.Erc20Token token))
    DefiTokenTypeDebt.

End erc20.

(** ** Quantities on the wire, read positionally *)

Module Quantity.

(** The characters after the two of the prefix. *)
Definition digits_of (answer : string) : string :=
  String.substring 2 (String.length answer - 2) answer.

Definition digit_value (c : ascii) : Z :=
  match hexutil.decodeNibble c with
  | Some d => d
  | None => 0
  end.

(** The number a string of hexadecimal digits denotes: each digit weighs
    sixteen to the number of digits after it. *)
Fixpoint hex_value (digits : string) : Z :=
  match digits with
  | EmptyString => 0
  | String c rest => digit_value c * 16 ^ len rest + hex_value rest
  end.

(** More than one digit, the first of them a zero. *)
Definition leading_zero (digits : string) : bool :=
  match digits with
  | String "0" (String _ _) => true
  | _ => false
  end.

(** A canonical quantity: prefix, at least one hexadecimal digit, no
    leading zero. *)
Definition canonical_quantity (answer : string) : bool :=
  Props.is_hex_quantity answer && negb (leading_zero (digits_of answer)).

End Quantity.

(** Fixtures for the field resolvers: a repository whose answers depend on
    every argument it is given. *)
Module Fixtures_erc20.

Definition ledger : erc20.Repository :=
  {| erc20.Erc20TotalSupply := fun token => (1000 + token, None);
     erc20.Erc20BalanceOf := fun token owner => (10 + token + owner, None);
     erc20.Erc20Allowance := fun token owner spender =>
       match spender with
       | Some sp => (3 + token + owner + sp, None)
       | None => (0, Some (errorString "no spender"))
       end;
     erc20.Erc20LogoURL := fun _ => "https://i.ibb.co/RNLvGqm/symbol.png"%string;
     erc20.FMintTokenTotalBalance := fun token kind =>
       match kind with
       | erc20.DefiTokenTypeCollateral => (500 + token, None)
       | erc20.DefiTokenTypeDebt => (200 + token, None)
       end |}.

End Fixtures_erc20.

(** ** The configuration's table of contract addresses *)

Module SpecModel.

(** Modelled from the spec: [mustContractAddress], the method of
    [fMintConfig] through which DefiConfiguration obtains its seven
    contract addresses, is declared outside the files at hand.  The spec
    gives the injected configuration "a fixed table of pre-known contract
    addresses (never fetched remotely, trusted as configured)" whose values
    are "trusted verbatim and are never subject to existence probing":
    the method answers with the table's entry for the name it is given and
    calls nothing.  The spec does not say what a name outside the table
    gives; the zero address stands in for it, and no property relies on
    that case. *)
Definition mustContractAddress (table : gmap string common.Address)
    (name : string) : common.Address :=
  match table !! name with
  | Some adr => adr
  | None => 0
  end.





End SpecModel.

(** * Properties *)

Import contracts rpc Props Fixtures.

(** ** The decimals loop *)

Lemma decimals_loop_eq (v d : Z) :
  decimals_loop v d =
  if 1 <? v then decimals_loop (v / 10) (wrap_int32 (d + 1)) else d.
Proof.
  rewrite (decimals_loop_equation_1 v d).
  destruct (Z_lt_dec 1 v) as [H|H]; cbn [decimals_loop_unfold_clause_1].
  - apply Z.ltb_lt in H. rewrite H. reflexivity.
  - apply Z.ltb_nlt in H. rewrite H. reflexivity.
Qed.

(** Every division shortens the value by at least one bit. *)
Lemma log2_div10 (v : Z) : 1 < v -> Z.log2 (v / 10) < Z.log2 v.
Proof.
  intros Hv.
  assert (Hhalf : Z.log2 (v / 10) <= Z.log2 (v / 2)).
  { apply Z.log2_le_mono. apply Z.div_le_compat_l; lia. }
  change 2 with (2 ^ 1) in Hhalf.
  rewrite <- Z.shiftr_div_pow2, Z.log2_shiftr in Hhalf by lia.
  assert (0 < Z.log2 v) by (apply Z.log2_pos; lia).
  lia.
Qed.

Lemma log2_0_not_gt1 (v : Z) : Z.log2 v <= 0 -> ~ 1 < v.
Proof. intros Hlog Hv. pose proof (Z.log2_pos v Hv). lia. Qed.

Lemma iter_div10_S (n : nat) (v : Z) :
  Nat.iter (S n) div10 v = Nat.iter n div10 (div10 v).
Proof. induction n; simpl in *; congruence. Qed.

Lemma counts_divisions_0 (v : Z) : v <= 1 -> counts_divisions v 0.
Proof. intros Hv. split; simpl; [exact Hv | lia]. Qed.

Lemma counts_divisions_step (v : Z) (n : nat) :
  1 < v -> counts_divisions (v / 10) n -> counts_divisions v (S n).
Proof.
  intros Hv [Hle Hlt]. split.
  - rewrite iter_div10_S. exact Hle.
  - intros [|k] Hk.
    + exact Hv.
    + rewrite iter_div10_S. apply Hlt. lia.
Qed.

(** The number of divisions is determined by the starting value. *)
Lemma counts_divisions_unique (v : Z) (n m : nat) :
  counts_divisions v n -> counts_divisions v m -> n = m.
Proof.
  intros [Hn1 Hn2] [Hm1 Hm2].
  destruct (lt_eq_lt_dec n m) as [[Hlt|Heq]|Hgt]; [|assumption|].
  - specialize (Hm2 n Hlt). lia.
  - specialize (Hn2 m Hgt). lia.
Qed.

(** The loop leaves within as many iterations as the value has bits, in the
    state the recursive function computes. *)
Lemma loop_run_within (m : nat) : forall v d,
  Z.log2 v <= Z.of_nat m ->
  exists n s',
    (n <= m)%nat /\
    loop_run n {| value := v; dec := d |} = Some s' /\
    value s' = Nat.iter n div10 v /\
    value s' <= 1 /\
    dec s' = decimals_loop v d.
Proof.
  induction m as [|m IH]; intros v d Hlog.
  - exists 0%nat, {| value := v; dec := d |}.
    pose proof (log2_0_not_gt1 v Hlog) as Hv.
    rewrite decimals_loop_eq. unfold loop_run, loop_step; simpl.
    pose proof Hv as Hv'. apply Z.ltb_nlt in Hv'. rewrite Hv'. simpl.
    repeat split; try lia.
  - destruct (Z.ltb_spec 1 v) as [Hv|Hv].
    + destruct (IH (v / 10) (wrap_int32 (d + 1)))
        as (n & s' & Hn & Hrun & Hval & Hle & Hdec).
      { pose proof (log2_div10 v Hv). lia. }
      exists (S n), s'. rewrite decimals_loop_eq.
      apply Z.ltb_lt in Hv. rewrite Hv.
      repeat split; try lia; try assumption.
      * simpl. unfold loop_step. simpl. rewrite Hv. exact Hrun.
      * rewrite iter_div10_S. exact Hval.
    + exists 0%nat, {| value := v; dec := d |}.
      rewrite decimals_loop_eq. unfold loop_run, loop_step; simpl.
      pose proof Hv as Hv'. apply Z.ltb_ge in Hv'. rewrite Hv'. simpl.
      repeat split; try lia.
Qed.

(** While the counter stays below 2^31 it counts the divisions. *)
Lemma decimals_loop_counts (m : nat) : forall v d,
  Z.log2 v <= Z.of_nat m -> 0 <= d -> d + Z.of_nat m < 2 ^ 31 ->
  exists n,
    (n <= m)%nat /\
    decimals_loop v d = d + Z.of_nat n /\
    counts_divisions v n.
Proof.
  induction m as [|m IH]; intros v d Hlog Hd Hmax.
  - exists 0%nat.
    pose proof (log2_0_not_gt1 v Hlog) as Hv.
    rewrite decimals_loop_eq.
    pose proof Hv as Hv'. apply Z.ltb_nlt in Hv'. rewrite Hv'.
    repeat split; simpl; try lia.
  - destruct (Z.ltb_spec 1 v) as [Hv|Hv].
    + assert (Hw : wrap_int32 (d + 1) = d + 1).
      { unfold wrap_int32. rewrite Z.mod_small; lia. }
      destruct (IH (v / 10) (wrap_int32 (d + 1))) as (n & Hn & Hdec & Hcnt).
      { pose proof (log2_div10 v Hv). lia. }
      { lia. }
      { lia. }
      exists (S n). rewrite decimals_loop_eq.
      pose proof Hv as Hv'. apply Z.ltb_lt in Hv'. rewrite Hv'.
      rewrite Hdec, Hw. repeat split; try lia.
      * rewrite iter_div10_S. apply Hcnt.
      * apply (counts_divisions_step v n Hv Hcnt).
    + exists 0%nat. rewrite decimals_loop_eq.
      pose proof Hv as Hv'. apply Z.ltb_ge in Hv'. rewrite Hv'.
      repeat split; simpl; try lia.
Qed.

(** A 64-bit value has at most 64 bits. *)
Lemma log2_uint64 (v : Z) : 0 <= v < 2 ^ 64 -> Z.log2 v <= 63.
Proof.
  intros [Hlo Hhi].
  destruct (Z.eq_dec v 0) as [->|Hnz]; [simpl; lia|].
  assert (Z.log2 v < 64); [|lia].
  apply Z.log2_lt_pow2; lia.
Qed.

(** What pullDefiDecimalCorrection returns once the getter has delivered a
    value: the count of divisions of the value's low 64 bits. *)
Lemma pullDefiDecimalCorrection_value (con : DefiFMintMinter) (v : Z) :
  FMintFeeDigitsCorrection con None = (Some v, None) ->
  exists n : nat,
    (n <= 63)%nat /\
    pullDefiDecimalCorrection con = (Z.of_nat n, None) /\
    counts_divisions (big_Uint64 v) n.
Proof.
  intros Hget.
  destruct (decimals_loop_counts 63 (big_Uint64 v) 0) as (n & Hn & Hdec & Hcnt).
  - apply log2_uint64. unfold big_Uint64. apply Z.mod_pos_bound. lia.
  - lia.
  - lia.
  - exists n. split; [exact Hn|]. split; [|exact Hcnt].
    unfold pullDefiDecimalCorrection, pullDefiConfigValue.
    rewrite Hget. unfold hexutil.ToInt. rewrite Hdec. reflexivity.
Qed.

Lemma big_Uint64_nonneg (v : Z) : 0 <= v -> big_Uint64 v = v mod 2 ^ 64.
Proof. intros Hv. unfold big_Uint64. rewrite Z.abs_eq by exact Hv. reflexivity. Qed.

Ltac count_by_evaluation :=
  split;
  [ apply Z.leb_le; vm_compute; reflexivity
  | intros k Hk;
    repeat (destruct k as [|k]; [apply Z.ltb_lt; vm_compute; reflexivity|]);
    lia ].

Example counts_divisions_10 : counts_divisions 10 1.
Proof. count_by_evaluation. Qed.

Example counts_divisions_10000 : counts_divisions 10000 4.
Proof. count_by_evaluation. Qed.

(** With too little fuel the loop has not left yet. *)
Example loop_run_10000_fuel_3 :
  loop_run 3 {| value := 10000; dec := 0 |} = None.
Proof. reflexivity. Qed.

Example loop_run_10000_fuel_4 :
  loop_run 4 {| value := 10000; dec := 0 |} = Some {| value := 1; dec := 4 |}.
Proof. reflexivity. Qed.

(** A negative [big.Int] is read by its magnitude. *)
Example pullDefiDecimalCorrection_negative :
  pullDefiDecimalCorrection (minter_with_correction (-100)) = (2, None).
Proof. reflexivity. Qed.

(** C2.  pullDefiDecimalCorrection divides the fetched scale factor by ten
    while it is greater than 1 and returns the number of divisions: 1 for
    10, 4 for 10000, 0 for 1 and 0 for 0. *)
Theorem pullDefiDecimalCorrection_counts_divisions
    (con : DefiFMintMinter) (scale : Z) :
  FMintFeeDigitsCorrection con None = (Some scale, None) ->
  0 <= scale < 2 ^ 64 ->
  exists n : nat,
    pullDefiDecimalCorrection con = (Z.of_nat n, None) /\
    counts_divisions scale n /\
    (scale = 10 -> n = 1%nat) /\
    (scale = 10000 -> n = 4%nat) /\
    (scale = 1 -> n = 0%nat) /\
    (scale = 0 -> n = 0%nat).
Proof.
  intros Hget Hrange.
  destruct (pullDefiDecimalCorrection_value con scale Hget)
    as (n & _ & Hres & Hcnt).
  rewrite big_Uint64_nonneg, Z.mod_small in Hcnt by lia.
  exists n. split; [exact Hres|]. split; [exact Hcnt|].
  repeat split; intros ->.
  - apply (counts_divisions_unique 10); [exact Hcnt | exact counts_divisions_10].
  - apply (counts_divisions_unique 10000);
      [exact Hcnt | exact counts_divisions_10000].
  - apply (counts_divisions_unique 1); [exact Hcnt|].
    apply counts_divisions_0. lia.
  - apply (counts_divisions_unique 0); [exact Hcnt|].
    apply counts_divisions_0. lia.
Qed.

Lemma pullDefiDecimalCorrection_counts_divisions_witness :
  exists n : nat,
    pullDefiDecimalCorrection (minter_with_correction 10000)
      = (Z.of_nat n, None) /\
    counts_divisions 10000 n /\
    (10000 = 10 -> n = 1%nat) /\
    (10000 = 10000 -> n = 4%nat) /\
    (10000 = 1 -> n = 0%nat) /\
    (10000 = 0 -> n = 0%nat).
Proof.
  apply (pullDefiDecimalCorrection_counts_divisions
           (minter_with_correction 10000) 10000).
  - reflexivity.
  - lia.
Defined.

(** C8.  The decimals loop terminates for every starting value: after
    finitely many divisions by ten, no more than the value has bits, the
    value is at most 1 and the loop leaves with the counter the function
    returns. *)
Theorem decimals_loop_terminates (v d : Z) :
  exists (n : nat) (s' : loop_state),
    (n <= Z.to_nat (Z.log2 v))%nat /\
    loop_run n {| value := v; dec := d |} = Some s' /\
    value s' = Nat.iter n div10 v /\
    value s' <= 1 /\
    dec s' = decimals_loop v d.
Proof.
  apply loop_run_within.
  rewrite Z2Nat.id; [lia | apply Z.log2_nonneg].
Qed.

(** C10.  The count is taken from the fetched value cut down to its low 64
    bits: for a value [v >= 0] it is the number of divisions of
    [v mod 2^64]; below 2^64 that is the number of divisions of [v] itself,
    from 2^64 on it need not be (2^64 is cut down to 0 and counts 0). *)
Theorem pullDefiDecimalCorrection_truncates_to_uint64
    (con : DefiFMintMinter) (v : Z) :
  FMintFeeDigitsCorrection con None = (Some v, None) ->
  0 <= v ->
  exists n : nat,
    pullDefiDecimalCorrection con = (Z.of_nat n, None) /\
    counts_divisions (v mod 2 ^ 64) n /\
    (v < 2 ^ 64 -> counts_divisions v n) /\
    (v = 2 ^ 64 -> n = 0%nat /\ ~ counts_divisions v n).
Proof.
  intros Hget Hv.
  destruct (pullDefiDecimalCorrection_value con v Hget)
    as (n & _ & Hres & Hcnt).
  rewrite big_Uint64_nonneg in Hcnt by exact Hv.
  exists n. split; [exact Hres|]. split; [exact Hcnt|]. split.
  - intros Hlt. rewrite Z.mod_small in Hcnt by lia. exact Hcnt.
  - intros ->. rewrite Z.mod_same in Hcnt by lia.
    assert (Hn : n = 0%nat).
    { apply (counts_divisions_unique 0); [exact Hcnt|].
      apply counts_divisions_0. lia. }
    split; [exact Hn|]. subst n. intros [Hle _]. simpl in Hle. lia.
Qed.

Lemma pullDefiDecimalCorrection_truncates_to_uint64_witness :
  exists n : nat,
    pullDefiDecimalCorrection (minter_with_correction (2 ^ 64 + 10000))
      = (Z.of_nat n, None) /\
    counts_divisions ((2 ^ 64 + 10000) mod 2 ^ 64) n /\
    (2 ^ 64 + 10000 < 2 ^ 64 -> counts_divisions (2 ^ 64 + 10000) n) /\
    (2 ^ 64 + 10000 = 2 ^ 64 -> n = 0%nat /\ ~ counts_divisions (2 ^ 64 + 10000) n).
Proof.
  apply (pullDefiDecimalCorrection_truncates_to_uint64
           (minter_with_correction (2 ^ 64 + 10000)) (2 ^ 64 + 10000)).
  - reflexivity.
  - lia.
Defined.

(** ** pullDefiConfigValue *)

Lemma pullDefiConfigValue_cases (cf : Loader) :
  (exists v, cf None = (Some v, None) /\ pullDefiConfigValue cf = (v, None)) \/
  (exists e, pullDefiConfigValue cf = (hexutil.Big_zero, Some e) /\
     (snd (cf None) = Some e \/
      cf None = (None, None) /\ e = Errorf "defi config value not available")).
Proof.
  unfold pullDefiConfigValue.
  destruct (cf None) as [[v|] [e|]]; simpl; eauto 8.
Qed.

(** C6.  A loader that succeeds with a nil result makes pullDefiConfigValue
    return an error, not a zero passed off as a value; an error of the
    loader is handed on; a value is returned, without error, exactly when
    the loader produced a non-nil result and no error. *)
Theorem pullDefiConfigValue_absent_is_error (cf : Loader) :
  (cf None = (None, None) ->
   pullDefiConfigValue cf =
   (hexutil.Big_zero, Some (Errorf "defi config value not available"))) /\
  (forall err, snd (cf None) = Some err ->
   pullDefiConfigValue cf = (hexutil.Big_zero, Some err)) /\
  (forall v, pullDefiConfigValue cf = (v, None) <-> cf None = (Some v, None)).
Proof.
  unfold pullDefiConfigValue. repeat split.
  - intros ->. reflexivity.
  - destruct (cf None) as [[val|] [e|]]; simpl; intros err [= ->];
      reflexivity.
  - destruct (cf None) as [[val|] [e|]]; intros [= <-]; reflexivity.
  - intros ->. reflexivity.
Qed.

Lemma pullDefiConfigValue_absent_is_error_witness :
  pullDefiConfigValue returns_nil =
  (hexutil.Big_zero, Some (Errorf "defi config value not available")).
Proof.
  apply (proj1 (pullDefiConfigValue_absent_is_error returns_nil)).
  reflexivity.
Defined.

(** ** The order of the loaders and the first error *)

Lemma first_error_app (l1 l2 : list Loader) :
  first_error (l1 ++ l2) =
  match first_error l1 with Some e => Some e | None => first_error l2 end.
Proof.
  induction l1 as [|fn l1 IH]; simpl; [reflexivity|].
  destruct (snd (pullDefiConfigValue fn)); [reflexivity | exact IH].
Qed.

Lemma first_error_None (l : list Loader) :
  first_error l = None <-> Forall succeeds l.
Proof.
  induction l as [|fn l IH]; simpl.
  - split; [constructor | reflexivity].
  - split.
    + destruct (snd (pullDefiConfigValue fn)) eqn:E; [discriminate|].
      intros H. constructor; [exact E | apply IH, H].
    + intros H. inversion H as [|? ? Hfn Hl]; subst.
      unfold succeeds in Hfn. rewrite Hfn. apply IH, Hl.
Qed.

(** An error comes from the first loader that fails: those before it have
    succeeded, those after it play no part. *)
Lemma first_error_split (l : list Loader) (e : error) :
  first_error l = Some e ->
  exists pre fn post,
    l = pre ++ fn :: post /\ Forall succeeds pre /\
    snd (pullDefiConfigValue fn) = Some e.
Proof.
  induction l as [|fn l IH]; simpl; [discriminate|].
  destruct (snd (pullDefiConfigValue fn)) as [e'|] eqn:E.
  - intros [= ->]. exists [], fn, l. repeat split; [constructor | exact E].
  - intros H. destruct (IH H) as (pre & fn' & post & -> & Hpre & Hfn).
    exists (fn :: pre), fn', post. repeat split; [|exact Hfn].
    constructor; [exact E | exact Hpre].
Qed.

Lemma first_error_Exists (l : list Loader) :
  Exists fails l -> exists e, first_error l = Some e.
Proof.
  intros H. destruct (first_error l) as [e|] eqn:E; [eauto|].
  apply first_error_None in E. exfalso.
  induction H as [fn l Hfn|fn l _ IH].
  - inversion E; subst. contradiction.
  - inversion E; subst. auto.
Qed.

Lemma first_error_perm_None (l1 l2 : list Loader) :
  l1 ≡ₚ l2 -> first_error l1 = None -> first_error l2 = None.
Proof.
  intros Hp H. apply first_error_None. apply first_error_None in H.
  exact (Permutation_Forall Hp H).
Qed.

(** The error of the range loop is the first error among its loaders. *)
Lemma pull_range_error (entries : list (Slot * Loader)) (ds : types.DefiSettings) :
  snd (pull_range entries ds) = first_error (map snd entries).
Proof.
  revert ds. induction entries as [|[ref fn] rest IH]; intros ds; simpl.
  - reflexivity.
  - destruct (pullDefiConfigValue fn) as [val [e|]]; simpl; [reflexivity|].
    apply IH.
Qed.

(** The loop writes through pointers to [hexutil.Big] fields only. *)
Lemma pull_range_addresses (entries : list (Slot * Loader)) :
  forall ds,
    let ds' := fst (pull_range entries ds) in
    types.FMintContract ds' = types.FMintContract ds /\
    types.FMintAddressProvider ds' = types.FMintAddressProvider ds /\
    types.FMintTokenRegistry ds' = types.FMintTokenRegistry ds /\
    types.FMintRewardDistribution ds' = types.FMintRewardDistribution ds /\
    types.FMintCollateralPool ds' = types.FMintCollateralPool ds /\
    types.FMintDebtPool ds' = types.FMintDebtPool ds /\
    types.PriceOracleAggregate ds' = types.PriceOracleAggregate ds.
Proof.
  induction entries as [|[ref fn] rest IH]; intros ds; simpl.
  - repeat split.
  - destruct (pullDefiConfigValue fn) as [val [e|]]; simpl.
    + repeat split.
    + apply (IH (store ref val ds)).
Qed.

Lemma config_loaders_entries (contract : DefiFMintMinter) :
  map_to_list (config_loaders contract) ≡ₚ
  [ (ref_MintFee4, GetFMintFee4dec contract);
    (ref_MinCollateralRatio4, GetCollateralLowestDebtRatio4dec contract);
    (ref_RewardCollateralRatio4, GetRewardEligibilityRatio4dec contract) ].
Proof.
  unfold config_loaders. apply map_to_list_to_map. simpl.
  apply (bool_decide_unpack _). reflexivity.
Qed.

(** Whatever the runtime's order, a run visits the four declared getters. *)
Lemma visit_order_declared (rt : MapRange) (contract : DefiFMintMinter) :
  visit_order rt contract ≡ₚ declared_loaders contract.
Proof.
  unfold visit_order, declared_loaders.
  rewrite (range_enumerates rt), config_loaders_entries. simpl.
  reflexivity.
Qed.

Lemma pullDefiDecimalCorrection_error (contract : DefiFMintMinter) :
  snd (pullDefiDecimalCorrection contract) =
  first_error [FMintFeeDigitsCorrection contract].
Proof.
  unfold pullDefiDecimalCorrection. simpl.
  destruct (pullDefiConfigValue (FMintFeeDigitsCorrection contract))
    as [val [e|]]; reflexivity.
Qed.

(** DefiConfiguration, once it holds the contract, returns the first error
    of its visit order, and a record only when there is none. *)
Lemma DefiConfiguration_first_error
    (rt : MapRange) (ftm : FtmBridge) (contract : DefiFMintMinter) :
  fMintMinterContract (fMintCfg ftm) = (Some contract, None) ->
  DefiConfiguration rt ftm =
  match first_error (visit_order rt contract) with
  | Some e => Returns (None, Some e)
  | None =>
      Returns
        (Some (set_Decimals
                 (fst (pullDefiDecimalCorrection contract))
                 (fst (pullSetOfDefiConfigValues rt (config_loaders contract)
                         (new_container (fMintCfg ftm))))),
         None)
  end.
Proof.
  intros Hc. unfold DefiConfiguration, visit_order. rewrite Hc.
  rewrite first_error_app.
  rewrite <- (pull_range_error (range rt (config_loaders contract))
                (new_container (fMintCfg ftm))).
  rewrite <- pullDefiDecimalCorrection_error.
  unfold pullSetOfDefiConfigValues.
  destruct (pull_range (range rt (config_loaders contract))
              (new_container (fMintCfg ftm))) as [ds [e|]]; simpl;
    [reflexivity|].
  destruct (pullDefiDecimalCorrection contract) as [d [e|]]; reflexivity.
Qed.

(** ** DefiConfiguration: success *)

Lemma load_store (ref ref' : Slot) (v : hexutil.Big) (ds : types.DefiSettings) :
  load ref' (store ref v ds) = if decide (ref = ref') then v else load ref' ds.
Proof. destruct ref, ref'; reflexivity. Qed.

(** A slot the loop does not visit keeps its value. *)
Lemma pull_range_untouched (entries : list (Slot * Loader)) :
  forall ds ref,
    ref ∉ map fst entries ->
    load ref (fst (pull_range entries ds)) = load ref ds.
Proof.
  induction entries as [|[ref' fn] rest IH]; intros ds ref Hnot; simpl.
  - reflexivity.
  - simpl in Hnot. apply not_elem_of_cons in Hnot as [Hne Hnot].
    destruct (pullDefiConfigValue fn) as [val [e|]]; simpl.
    + rewrite load_store. destruct (decide (ref' = ref)); congruence.
    + rewrite (IH _ _ Hnot), load_store.
      destruct (decide (ref' = ref)); congruence.
Qed.

(** When every loader succeeds, each slot holds what its loader returned. *)
Lemma pull_range_stores (entries : list (Slot * Loader)) :
  forall ds ref fn,
    NoDup (map fst entries) ->
    first_error (map snd entries) = None ->
    (ref, fn) ∈ entries ->
    load ref (fst (pull_range entries ds)) = fst (pullDefiConfigValue fn).
Proof.
  induction entries as [|[ref' fn'] rest IH]; intros ds ref fn Hnd Hok Hin.
  - inversion Hin.
  - simpl in *. apply NoDup_cons in Hnd as [Hfresh Hnd].
    destruct (pullDefiConfigValue fn') as [val [e|]] eqn:Hpull; simpl in *;
      [discriminate Hok|].
    apply elem_of_cons in Hin as [[= -> ->]|Hin].
    + rewrite (pull_range_untouched rest _ _ Hfresh), load_store.
      rewrite decide_True by reflexivity. rewrite Hpull. reflexivity.
    + apply (IH _ _ _ Hnd Hok Hin).
Qed.

Lemma range_keys_NoDup (rt : MapRange) (loaders : tConfigItemsLoaders) :
  NoDup (map fst (range rt loaders)).
Proof.
  rewrite (range_enumerates rt). apply NoDup_fst_map_to_list.
Qed.

(** With the contract at hand and all four getters delivering, the record
    is returned whole, whatever the order of the visit. *)
Lemma DefiConfiguration_success
    (rt : MapRange) (ftm : FtmBridge) (contract : DefiFMintMinter) :
  fMintMinterContract (fMintCfg ftm) = (Some contract, None) ->
  Forall succeeds (declared_loaders contract) ->
  exists ds,
    DefiConfiguration rt ftm = Returns (Some ds, None) /\
    types.MintFee4 ds = fst (pullDefiConfigValue (GetFMintFee4dec contract)) /\
    types.MinCollateralRatio4 ds =
      fst (pullDefiConfigValue (GetCollateralLowestDebtRatio4dec contract)) /\
    types.RewardCollateralRatio4 ds =
      fst (pullDefiConfigValue (GetRewardEligibilityRatio4dec contract)) /\
    types.Decimals ds = fst (pullDefiDecimalCorrection contract).
Proof.
  intros Hc Hall.
  assert (Hnone : first_error (visit_order rt contract) = None).
  { apply first_error_None.
    exact (Permutation_Forall (symmetry (visit_order_declared rt contract))
             Hall). }
  rewrite (DefiConfiguration_first_error rt ftm contract Hc), Hnone.
  eexists. split; [reflexivity|].
  unfold visit_order in Hnone. rewrite first_error_app in Hnone.
  destruct (first_error (map snd (range rt (config_loaders contract))))
    eqn:Hmap; [discriminate Hnone|].
  unfold pullSetOfDefiConfigValues.
  pose proof (fun ref fn =>
    pull_range_stores (range rt (config_loaders contract))
      (new_container (fMintCfg ftm)) ref fn
      (range_keys_NoDup rt _) Hmap) as Hstore.
  assert (Hin : forall ref fn,
             config_loaders contract !! ref = Some fn ->
             (ref, fn) ∈ range rt (config_loaders contract)).
  { intros ref fn Hl. rewrite (range_enumerates rt).
    apply elem_of_map_to_list, Hl. }
  repeat split.
  - apply (Hstore ref_MintFee4), Hin. reflexivity.
  - apply (Hstore ref_MinCollateralRatio4), Hin. reflexivity.
  - apply (Hstore ref_RewardCollateralRatio4), Hin. reflexivity.
Qed.

(** Without the contract nothing is loaded. *)
Lemma DefiConfiguration_contract_error
    (rt : MapRange) (ftm : FtmBridge) (err : error) :
  snd (fMintMinterContract (fMintCfg ftm)) = Some err ->
  DefiConfiguration rt ftm = Returns (None, Some err).
Proof.
  unfold DefiConfiguration.
  destruct (fMintMinterContract (fMintCfg ftm)) as [[c|] [e|]]; simpl;
    intros [= ->]; reflexivity.
Qed.

(** ** DefiConfiguration: failure *)

(** C1, as the code has it.  If any of the four getters fails, the run stops
    at the first failing one in its visit order, returns no record (nil and
    an error), and the error is that getter's own error, or the fixed
    message for a nil result: the value rises unchanged, so it neither
    names the slot nor wraps a cause. *)
Theorem DefiConfiguration_fail_fast
    (rt : MapRange) (ftm : FtmBridge) (contract : DefiFMintMinter) :
  fMintMinterContract (fMintCfg ftm) = (Some contract, None) ->
  Exists fails (declared_loaders contract) ->
  exists pre fn post e,
    visit_order rt contract = pre ++ fn :: post /\
    Forall succeeds pre /\
    (snd (fn None) = Some e \/
     fn None = (None, None) /\
     e = Errorf "defi config value not available") /\
    DefiConfiguration rt ftm = Returns (None, Some e).
Proof.
  intros Hc Hfail.
  assert (Hvisit : Exists fails (visit_order rt contract)).
  { exact (Permutation_Exists (symmetry (visit_order_declared rt contract))
             Hfail). }
  destruct (first_error_Exists _ Hvisit) as [e He].
  destruct (first_error_split _ e He) as (pre & fn & post & Hsplit & Hpre & Hfn).
  exists pre, fn, post, e. repeat split; try assumption.
  - destruct (pullDefiConfigValue_cases fn) as [(v & _ & Hv)|(e' & He' & Hor)].
    + rewrite Hv in Hfn. discriminate Hfn.
    + rewrite He' in Hfn. injection Hfn as ->. exact Hor.
  - rewrite (DefiConfiguration_first_error rt ftm contract Hc), He.
    reflexivity.
Qed.

Lemma DefiConfiguration_fail_fast_witness :
  exists pre fn post e,
    visit_order rt_forward
      (minter (returns_value 25) (returns_error "execution reverted")
              (returns_value 50000) (returns_value 10000))
      = pre ++ fn :: post /\
    Forall succeeds pre /\
    (snd (fn None) = Some e \/
     fn None = (None, None) /\
     e = Errorf "defi config value not available") /\
    DefiConfiguration rt_forward
      (bridge (minter (returns_value 25) (returns_error "execution reverted")
                      (returns_value 50000) (returns_value 10000)))
      = Returns (None, Some e).
Proof.
  apply DefiConfiguration_fail_fast.
  - reflexivity.
  - apply Exists_cons_tl, Exists_cons_hd. unfold fails. simpl. discriminate.
Defined.

(** C1 fails as stated: the fee getter failing in one bridge and the ratio
    getter failing in another, with the same cause, give the very same
    error, which is the bare cause; nothing in it tells the slots apart. *)
Lemma DefiConfiguration_error_names_no_slot :
  DefiConfiguration rt_forward
    (bridge (minter (returns_error "execution reverted") (returns_value 30000)
                    (returns_value 50000) (returns_value 10000)))
  = Returns (None, Some (errorString "execution reverted")) /\
  DefiConfiguration rt_forward
    (bridge (minter (returns_value 25) (returns_error "execution reverted")
                    (returns_value 50000) (returns_value 10000)))
  = Returns (None, Some (errorString "execution reverted")) /\
  ~ (exists slot_of : error -> Slot,
       slot_of (errorString "execution reverted") = ref_MintFee4 /\
       slot_of (errorString "execution reverted") = ref_MinCollateralRatio4).
Proof.
  split; [vm_compute; reflexivity|].
  split; [vm_compute; reflexivity|].
  intros (slot_of & H1 & H2). rewrite H1 in H2. discriminate H2.
Qed.

(** ** pullSetOfDefiConfigValues: which error *)

(** C4, as the code has it.  Of several failing loaders the run surfaces
    one error, that of the first failing loader in the order in which its
    range loop visits the map.  Whether the run fails does not depend on
    that order, and its error is always that of a failing loader of the
    map; two runs return the same error when they visit in the same order,
    or when all failing loaders of the map report the same error. *)
Theorem pullSetOfDefiConfigValues_error_by_visit_order
    (rt1 rt2 : MapRange) (loaders : tConfigItemsLoaders)
    (ds : types.DefiSettings) :
  let err1 := snd (pullSetOfDefiConfigValues rt1 loaders ds) in
  let err2 := snd (pullSetOfDefiConfigValues rt2 loaders ds) in
  err1 = first_error (map snd (range rt1 loaders)) /\
  (err1 = None <-> err2 = None) /\
  (forall e, err1 = Some e ->
     exists ref fn,
       loaders !! ref = Some fn /\ snd (pullDefiConfigValue fn) = Some e) /\
  (range rt1 loaders = range rt2 loaders -> err1 = err2) /\
  ((forall ref ref' fn fn' e e',
       loaders !! ref = Some fn -> loaders !! ref' = Some fn' ->
       snd (pullDefiConfigValue fn) = Some e ->
       snd (pullDefiConfigValue fn') = Some e' -> e = e') ->
   err1 = err2).
Proof.
  intros err1 err2. subst err1 err2. unfold pullSetOfDefiConfigValues.
  rewrite !pull_range_error.
  assert (Hperm : map snd (range rt1 loaders) ≡ₚ map snd (range rt2 loaders)).
  { apply Permutation_map.
    rewrite (range_enumerates rt1), (range_enumerates rt2). reflexivity. }
  assert (Hsource : forall rt e,
             first_error (map snd (range rt loaders)) = Some e ->
             exists ref fn,
               loaders !! ref = Some fn /\
               snd (pullDefiConfigValue fn) = Some e).
  { intros rt e He.
    destruct (first_error_split _ e He) as (pre & fn & post & Hsplit & _ & Hfn).
    assert (Hin : fn ∈ map snd (range rt loaders)).
    { rewrite Hsplit. apply elem_of_app. right. apply elem_of_cons. left.
      reflexivity. }
    apply list_elem_of_fmap in Hin. destruct Hin as ([ref fn'] & -> & Hin).
    rewrite (range_enumerates rt) in Hin.
    apply elem_of_map_to_list in Hin. exists ref, fn'. split; assumption. }
  split; [reflexivity|]. split; [|split; [|split]].
  - split; apply first_error_perm_None; [exact Hperm | symmetry; exact Hperm].
  - apply Hsource.
  - intros ->. reflexivity.
  - intros Hsame.
    destruct (first_error (map snd (range rt1 loaders))) as [e1|] eqn:E1;
      destruct (first_error (map snd (range rt2 loaders))) as [e2|] eqn:E2.
    + destruct (Hsource rt1 e1 E1) as (r1 & f1 & Hl1 & Hf1).
      destruct (Hsource rt2 e2 E2) as (r2 & f2 & Hl2 & Hf2).
      f_equal. exact (Hsame r1 r2 f1 f2 e1 e2 Hl1 Hl2 Hf1 Hf2).
    + apply (first_error_perm_None _ _ (symmetry Hperm)) in E2. congruence.
    + apply (first_error_perm_None _ _ Hperm) in E1. congruence.
    + reflexivity.
Qed.

Lemma pullSetOfDefiConfigValues_error_by_visit_order_witness :
  let loaders :=
    config_loaders
      (minter (returns_value 25) (returns_error "ratio unavailable")
              (returns_value 50000) (returns_value 10000)) in
  let ds := new_container (fMintCfg (bridge (minter_with_correction 10000))) in
  snd (pullSetOfDefiConfigValues rt_forward loaders ds)
    = snd (pullSetOfDefiConfigValues rt_backward loaders ds).
Proof.
  intros loaders ds.
  apply (pullSetOfDefiConfigValues_error_by_visit_order
           rt_forward rt_backward loaders ds).
  assert (Hone : forall ref fn e,
             loaders !! ref = Some fn ->
             snd (pullDefiConfigValue fn) = Some e ->
             e = errorString "ratio unavailable").
  { intros ref fn e Hl Hf.
    destruct ref; vm_compute in Hl; injection Hl as <-;
      vm_compute in Hf; congruence. }
  intros ref ref' fn fn' e e' Hl Hl' Hf Hf'.
  rewrite (Hone ref fn e Hl Hf), (Hone ref' fn' e' Hl' Hf'). reflexivity.
Defined.

(** C4 fails as stated: over one map in which two loaders fail, a run that
    ranges forward and a run that ranges backward return different
    errors. *)
Lemma pullSetOfDefiConfigValues_error_depends_on_order :
  let loaders :=
    config_loaders
      (minter (returns_error "fee unavailable")
              (returns_error "ratio unavailable")
              (returns_value 50000) (returns_value 10000)) in
  let ds := new_container (fMintCfg (bridge (minter_with_correction 10000))) in
  snd (pullSetOfDefiConfigValues rt_forward loaders ds)
    = Some (errorString "ratio unavailable") /\
  snd (pullSetOfDefiConfigValues rt_backward loaders ds)
    = Some (errorString "fee unavailable").
Proof. split; vm_compute; reflexivity. Qed.

(** ** DefiConfiguration: the contract addresses *)





(** ** NewErc20Token *)

(** C3, as the code has it.  Every error of the repository's probe, of
    whatever kind, makes NewErc20Token return nil; it has no error result,
    so nothing propagates and the caller sees the same absence each time.
    A handle is returned exactly when the repository returned a token and
    no error. *)
Theorem NewErc20Token_any_error_is_absence
    (R : repository.Repository) (adr : common.Address) :
  (forall err, snd (repository.Erc20Token R adr) = Some err ->
     resolvers.NewErc20Token R adr = Returns None) /\
  (forall token,
     resolvers.NewErc20Token R adr = Returns (Some token) <->
     repository.Erc20Token R adr = (Some (resolvers.Erc20Token token), None)).
Proof.
  unfold resolvers.NewErc20Token. split.
  - intros err Herr.
    destruct (repository.Erc20Token R adr) as [[tok|] [e|]]; simpl in Herr;
      try discriminate Herr; reflexivity.
  - intros [tok]. simpl.
    destruct (repository.Erc20Token R adr) as [[erc20|] [e|]];
      split; intros H; try discriminate H.
    + injection H as ->. reflexivity.
    + injection H as ->. reflexivity.
Qed.

Lemma NewErc20Token_any_error_is_absence_witness :
  resolvers.NewErc20Token (repo_failing "execution reverted") 7
    = Returns None.
Proof.
  apply (proj1 (NewErc20Token_any_error_is_absence
                  (repo_failing "execution reverted") 7)
           (errorString "execution reverted")).
  reflexivity.
Defined.

(** C3 fails as stated: a probe the node rejects and a node that cannot be
    reached end in the same result, nil, and no error reaches the caller in
    either case. *)
Lemma NewErc20Token_transport_failure_is_absence :
  resolvers.NewErc20Token (repo_failing "execution reverted") 7
    = Returns None /\
  resolvers.NewErc20Token
    (repo_failing "dial unix lachesis.ipc: connect: connection refused") 7
    = Returns None.
Proof. split; reflexivity. Qed.

(** ** AccountBalance and AccountNonce *)

Lemma substring_0_length (s : string) :
  String.substring 0 (String.length s) s = s.
Proof.
  induction s as [|c s IH]; simpl; [reflexivity | rewrite IH; reflexivity].
Qed.

Lemma has0xPrefix_shape (s : string) :
  hexutil.has0xPrefix s = true ->
  exists a b rest, s = String a (String b rest).
Proof.
  destruct s as [|a [|b rest]]; intros H.
  - discriminate H.
  - destruct a as [[] [] [] [] [] [] [] []]; discriminate H.
  - eauto.
Qed.

Lemma input_after_prefix (a b : ascii) (rest : string) :
  String.substring 2 (String.length (String a (String b rest)) - 2)
    (String a (String b rest)) = rest.
Proof. simpl. rewrite Nat.sub_0_r. apply substring_0_length. Qed.

(** What checkNumber lets through has the prefix and at least one digit. *)
Lemma checkNumber_digits (input raw : string) :
  hexutil.checkNumber input = (raw, None) ->
  hexutil.has0xPrefix input = true /\
  raw = String.substring 2 (String.length input - 2) input /\
  raw <> EmptyString.
Proof.
  unfold hexutil.checkNumber.
  destruct (len input =? 0); [discriminate|].
  destruct (hexutil.has0xPrefix input) eqn:Hp; simpl; [|discriminate].
  destruct (String.substring 2 (String.length input - 2) input)
    as [|c [|c' r]] eqn:Hsub.
  - discriminate.
  - destruct c as [[] [] [] [] [] [] [] []]; intros [= <-];
      repeat split; discriminate.
  - destruct c as [[] [] [] [] [] [] [] []]; intros [= <-];
      repeat split; discriminate.
Qed.

Lemma all_hex_decodeNibbles (raw : string) :
  all_hex raw = false -> forall n, hexutil.decodeNibbles n raw = None.
Proof.
  induction raw as [|c raw IH]; simpl; [discriminate|].
  destruct (hexutil.decodeNibble c); [|reflexivity].
  intros H n. apply IH, H.
Qed.

Lemma all_hex_parseUint16 (raw : string) :
  all_hex raw = false ->
  forall n, exists v e, hexutil.parseUint16 n raw = (v, Some e).
Proof.
  induction raw as [|c raw IH]; simpl; [discriminate|].
  destruct (hexutil.decodeNibble c); [|eauto].
  intros H n. destruct (2 ^ 60 <=? n); [eauto|]. apply IH, H.
Qed.

Lemma malformed_digits (input raw : string) :
  is_hex_quantity input = false ->
  hexutil.checkNumber input = (raw, None) ->
  all_hex raw = false.
Proof.
  intros Hq Hc. destruct (checkNumber_digits input raw Hc) as (Hp & Hraw & Hne).
  destruct (has0xPrefix_shape input Hp) as (a & b & rest & ->).
  unfold is_hex_quantity in Hq. rewrite Hp in Hq.
  rewrite input_after_prefix in Hq, Hraw. subst rest.
  destruct raw as [|c raw]; [congruence|].
  unfold len in Hq. simpl String.length in Hq.
  replace (2 <? Z.of_nat (S (S (S (String.length raw))))) with true in Hq
    by (symmetry; apply Z.ltb_lt; lia).
  exact Hq.
Qed.

Lemma DecodeBig_malformed (input : string) :
  is_hex_quantity input = false ->
  exists e, hexutil.DecodeBig input = (None, Some e).
Proof.
  intros Hq. unfold hexutil.DecodeBig.
  destruct (hexutil.checkNumber input) as [raw [e|]] eqn:Hc; [eauto|].
  destruct (64 <? len raw); [eauto|].
  rewrite (all_hex_decodeNibbles raw (malformed_digits input raw Hq Hc)).
  eauto.
Qed.

Lemma DecodeUint64_malformed (input : string) :
  is_hex_quantity input = false ->
  exists v e, hexutil.DecodeUint64 input = (v, Some e).
Proof.
  intros Hq. unfold hexutil.DecodeUint64.
  destruct (hexutil.checkNumber input) as [raw [e|]] eqn:Hc; [eauto|].
  apply all_hex_parseUint16, (malformed_digits input raw Hq Hc).
Qed.

(** A count that parses fits 64 bits. *)
Lemma parseUint16_range (raw : string) :
  forall n v,
    0 <= n < 2 ^ 64 ->
    hexutil.parseUint16 n raw = (v, None) -> 0 <= v < 2 ^ 64.
Proof.
  induction raw as [|c raw IH]; simpl; intros n v Hn.
  - intros [= <-]. exact Hn.
  - destruct (hexutil.decodeNibble c) as [d|] eqn:Hd; [|discriminate].
    destruct (Z.leb_spec (2 ^ 60) n) as [Hbig|Hsmall]; [discriminate|].
    apply IH.
    assert (0 <= d < 16); [|lia].
    unfold hexutil.decodeNibble in Hd.
    repeat match type of Hd with
           | (if ?b then _ else _) = _ => destruct b eqn:?
           end; try discriminate Hd; injection Hd as <-; lia.
Qed.

Lemma DecodeUint64_range (input : string) (v : Z) :
  hexutil.DecodeUint64 input = (v, None) -> 0 <= v < 2 ^ 64.
Proof.
  unfold hexutil.DecodeUint64.
  destruct (hexutil.checkNumber input) as [raw [e|]]; [discriminate|].
  apply parseUint16_range. lia.
Qed.

Import Quantity.

Lemma len_String (c : ascii) (s : string) : len (String c s) = len s + 1.
Proof. unfold len. simpl String.length. lia. Qed.

Lemma len_nonneg (s : string) : 0 <= len s.
Proof. unfold len. lia. Qed.

Lemma decodeNibble_range (c : ascii) (d : Z) :
  hexutil.decodeNibble c = Some d -> 0 <= d < 16.
Proof.
  unfold hexutil.decodeNibble. intros Hd.
  repeat match type of Hd with
         | (if ?b then _ else _) = _ => destruct b eqn:?
         end; try discriminate Hd; injection Hd as <-; lia.
Qed.

Lemma hex_value_nonneg (digits : string) : 0 <= hex_value digits.
Proof.
  induction digits as [|c rest IH]; simpl; [lia|].
  assert (0 <= digit_value c).
  { unfold digit_value. destruct (hexutil.decodeNibble c) eqn:E; [|lia].
    apply decodeNibble_range in E. lia. }
  assert (0 < 16 ^ len rest) by (apply Z.pow_pos_nonneg; [lia|apply len_nonneg]).
  nia.
Qed.

Lemma pow16_len_String (c : ascii) (rest : string) :
  16 ^ len (String c rest) = 16 * 16 ^ len rest.
Proof.
  rewrite len_String, Z.pow_add_r by (try apply len_nonneg; lia).
  lia.
Qed.

(** The accumulating loop of DecodeBig computes the positional value. *)
Lemma decodeNibbles_value (raw : string) : forall n,
  all_hex raw = true ->
  hexutil.decodeNibbles n raw = Some (n * 16 ^ len raw + hex_value raw).
Proof.
  induction raw as [|c rest IH]; intros n Hhex.
  - simpl. f_equal. unfold len. simpl. lia.
  - simpl in Hhex |- *. unfold digit_value.
    destruct (hexutil.decodeNibble c) as [d|]; [|discriminate Hhex].
    rewrite (IH _ Hhex). f_equal.
    rewrite pow16_len_String. lia.
Qed.

(** So does the loop of ParseUint, as long as the value fits 64 bits; from
    2^64 on it reports the range error. *)
Lemma parseUint16_value (raw : string) : forall n,
  all_hex raw = true -> 0 <= n < 2 ^ 64 ->
  let total := n * 16 ^ len raw + hex_value raw in
  (total < 2 ^ 64 -> hexutil.parseUint16 n raw = (total, None)) /\
  (2 ^ 64 <= total ->
   exists v, hexutil.parseUint16 n raw = (v, Some hexutil.ErrUint64Range)).
Proof.
  induction raw as [|c rest IH]; intros n Hhex Hn total; subst total.
  - simpl. replace (n * 16 ^ len "" + 0) with n by (unfold len; simpl; lia).
    split; [reflexivity | lia].
  - simpl in Hhex |- *. unfold digit_value.
    destruct (hexutil.decodeNibble c) as [d|] eqn:Hd; [|discriminate Hhex].
    pose proof (decodeNibble_range c d Hd) as Hdr.
    pose proof (hex_value_nonneg rest) as Hnn.
    assert (Hp : 0 < 16 ^ len rest)
      by (apply Z.pow_pos_nonneg; [lia|apply len_nonneg]).
    rewrite pow16_len_String.
    destruct (Z.leb_spec (2 ^ 60) n) as [Hbig|Hsmall].
    + split; [|eauto]. intros Hlt. exfalso.
      change (2 ^ 64) with (2 ^ 60 * 16) in Hlt. nia.
    + destruct (IH (n * 16 + d) Hhex) as [Hfit Hover]; [lia|].
      replace (n * (16 * 16 ^ len rest) + (d * 16 ^ len rest + hex_value rest))
        with ((n * 16 + d) * 16 ^ len rest + hex_value rest) by lia.
      split; assumption.
Qed.

Lemma has0xPrefix_len (s : string) :
  hexutil.has0xPrefix s = true -> 2 <= len s.
Proof.
  intros H. destruct (has0xPrefix_shape s H) as (a & b & rest & ->).
  rewrite !len_String. pose proof (len_nonneg rest). lia.
Qed.

Lemma checkNumber_eq (input : string) :
  hexutil.checkNumber input =
  if len input =? 0 then (EmptyString, Some hexutil.ErrEmptyString)
  else if negb (hexutil.has0xPrefix input)
       then (EmptyString, Some hexutil.ErrMissingPrefix)
  else match digits_of input with
       | EmptyString => (EmptyString, Some hexutil.ErrEmptyNumber)
       | _ => if leading_zero (digits_of input)
              then (EmptyString, Some hexutil.ErrLeadingZero)
              else (digits_of input, None)
       end.
Proof.
  unfold hexutil.checkNumber. fold (digits_of input).
  destruct (len input =? 0); [reflexivity|].
  destruct (negb (hexutil.has0xPrefix input)); [reflexivity|].
  destruct (digits_of input) as [|c [|c' r]]; [reflexivity| |];
    destruct c as [[] [] [] [] [] [] [] []]; reflexivity.
Qed.

Lemma digits_len (input : string) :
  hexutil.has0xPrefix input = true -> len (digits_of input) = len input - 2.
Proof.
  intros Hp. destruct (has0xPrefix_shape input Hp) as (a & b & rest & ->).
  unfold digits_of. rewrite input_after_prefix, !len_String. lia.
Qed.

(** checkNumber lets through, among strings of hexadecimal digits, exactly
    the canonical quantities, and hands on their digits. *)
Lemma checkNumber_canonical (input raw : string) :
  hexutil.checkNumber input = (raw, None) /\ all_hex raw = true <->
  canonical_quantity input = true /\ raw = digits_of input.
Proof.
  rewrite checkNumber_eq.
  unfold canonical_quantity, is_hex_quantity.
  destruct (hexutil.has0xPrefix input) eqn:Hp; simpl.
  - pose proof (has0xPrefix_len input Hp) as Hlen.
    pose proof (digits_len input Hp) as Hdl.
    replace (len input =? 0) with false by (symmetry; apply Z.eqb_neq; lia).
    fold (digits_of input).
    destruct (digits_of input) as [|c r] eqn:Hd.
    + replace (2 <? len input) with false
        by (symmetry; apply Z.ltb_ge; unfold len in Hdl at 1; simpl in Hdl; lia).
      simpl. split; [intros [H _]; discriminate H | intros [H _]; discriminate H].
    + replace (2 <? len input) with true
        by (symmetry; apply Z.ltb_lt; rewrite len_String in Hdl;
            pose proof (len_nonneg r); lia).
      rewrite andb_true_l.
      destruct (leading_zero (String c r)); simpl.
      * rewrite andb_false_r.
        split; [intros [H _]; discriminate H | intros [H _]; discriminate H].
      * rewrite andb_true_r. split.
        -- intros [[= <-] H]. split; [exact H | reflexivity].
        -- intros [H ->]. split; [reflexivity | exact H].
  - split; [|intros [H _]; discriminate H].
    intros [H _]. destruct (len input =? 0); discriminate H.
Qed.

(** What DecodeBig accepts and what it computes. *)
Lemma DecodeBig_canonical (answer : string) (v : Z) :
  hexutil.DecodeBig answer = (Some v, None) <->
  canonical_quantity answer = true /\
  len (digits_of answer) <= 64 /\
  v = hex_value (digits_of answer).
Proof.
  unfold hexutil.DecodeBig.
  destruct (hexutil.checkNumber answer) as [raw [e|]] eqn:Hc.
  - split; [intros H; discriminate H|].
    intros (Hcan & _ & _).
    destruct (proj2 (checkNumber_canonical answer (digits_of answer)))
      as [Hc' _]; [split; [exact Hcan | reflexivity]|].
    rewrite Hc in Hc'. discriminate Hc'.
  - destruct (all_hex raw) eqn:Hhex.
    + destruct (proj1 (checkNumber_canonical answer raw)) as [Hcan ->];
        [split; assumption|].
      rewrite (decodeNibbles_value _ 0 Hhex). simpl (0 * _ + _).
      destruct (Z.ltb_spec 64 (len (digits_of answer))) as [Hlong|Hshort].
      * split; [intros H; discriminate H | intros (_ & Hle & _); lia].
      * split.
        -- intros [= <-]. auto.
        -- intros (_ & _ & ->). reflexivity.
    + rewrite (all_hex_decodeNibbles raw Hhex).
      split.
      * destruct (64 <? len raw); intros H; discriminate H.
      * intros (Hcan & _ & _).
        destruct (proj2 (checkNumber_canonical answer (digits_of answer)))
          as [Hc' Hh]; [split; [exact Hcan | reflexivity]|].
        rewrite Hc in Hc'. injection Hc' as ->. congruence.
Qed.

Lemma DecodeBig_value_or_error (answer : string) :
  (exists v, hexutil.DecodeBig answer = (Some v, None)) \/
  (exists e, hexutil.DecodeBig answer = (None, Some e)).
Proof.
  unfold hexutil.DecodeBig.
  destruct (hexutil.checkNumber answer) as [raw [e|]]; [eauto|].
  destruct (64 <? len raw); [eauto|].
  destruct (hexutil.decodeNibbles 0 raw); eauto.
Qed.

(** What DecodeUint64 accepts and what it computes. *)
Lemma DecodeUint64_canonical (answer : string) (v : Z) :
  hexutil.DecodeUint64 answer = (v, None) <->
  canonical_quantity answer = true /\
  hex_value (digits_of answer) < 2 ^ 64 /\
  v = hex_value (digits_of answer).
Proof.
  unfold hexutil.DecodeUint64.
  destruct (hexutil.checkNumber answer) as [raw [e|]] eqn:Hc.
  - split; [intros H; discriminate H|].
    intros (Hcan & _ & _).
    destruct (proj2 (checkNumber_canonical answer (digits_of answer)))
      as [Hc' _]; [split; [exact Hcan | reflexivity]|].
    rewrite Hc in Hc'. discriminate Hc'.
  - destruct (all_hex raw) eqn:Hhex.
    + destruct (proj1 (checkNumber_canonical answer raw)) as [Hcan ->];
        [split; assumption|].
      destruct (parseUint16_value (digits_of answer) 0 Hhex) as [Hfit Hover];
        [lia|].
      simpl (0 * _ + _) in Hfit, Hover.
      destruct (Z.lt_ge_cases (hex_value (digits_of answer)) (2 ^ 64))
        as [Hlt|Hge].
      * rewrite (Hfit Hlt). split.
        -- intros [= <-]. auto.
        -- intros (_ & _ & ->). reflexivity.
      * destruct (Hover Hge) as [w ->].
        split; [intros H; discriminate H | intros (_ & Hlt & _); lia].
    + destruct (all_hex_parseUint16 raw Hhex 0) as (w & e & ->).
      split; [intros H; discriminate H|].
      intros (Hcan & _ & _).
      destruct (proj2 (checkNumber_canonical answer (digits_of answer)))
        as [Hc' Hh]; [split; [exact Hcan | reflexivity]|].
      rewrite Hc in Hc'. injection Hc' as ->. congruence.
Qed.

(** C7.  With the node answering [balance] to the balance request and
    [nonce] to the transaction count request, AccountBalance returns a
    value exactly when [balance] is a canonical quantity of at most 64
    digits, and AccountNonce a count exactly when [nonce] is a canonical
    quantity below 2^64; either result is the number the hexadecimal
    digits denote.  So 0x1b1ae4d6e2ef500000 decodes to 500 * 10^18 and 0x5
    to 5, every other answer (no prefix, no digit, a character that is no
    hexadecimal digit, a leading zero, too long or too large) gives an
    error and no value, and a count that is returned fits an unsigned
    64-bit integer. *)
Theorem Account_answers_decode
    (Hex : common.Address -> string) (ftm : FtmBridge) (addr : common.Address)
    (balance nonce : string) :
  Call (rpc ftm) "ftm_getBalance" [Hex addr; "latest"%string]
    = (balance, None) ->
  Call (rpc ftm) "ftm_getTransactionCount" [Hex addr; "latest"%string]
    = (nonce, None) ->
  (forall v,
     AccountBalance Hex ftm addr = (Some v, None) <->
     canonical_quantity balance = true /\
     len (digits_of balance) <= 64 /\
     v = hex_value (digits_of balance)) /\
  (forall count,
     AccountNonce Hex ftm addr = (count, None) <->
     canonical_quantity nonce = true /\
     hex_value (digits_of nonce) < 2 ^ 64 /\
     count = hex_value (digits_of nonce)) /\
  (balance = "0x1b1ae4d6e2ef500000"%string ->
   AccountBalance Hex ftm addr = (Some (500 * 10 ^ 18), None)) /\
  (nonce = "0x5"%string -> AccountNonce Hex ftm addr = (5, None)) /\
  (canonical_quantity balance = false \/ 64 < len (digits_of balance) ->
   exists e, AccountBalance Hex ftm addr = (None, Some e)) /\
  (canonical_quantity nonce = false \/ 2 ^ 64 <= hex_value (digits_of nonce) ->
   exists e, AccountNonce Hex ftm addr = (0, Some e)) /\
  (is_hex_quantity balance = false ->
   exists e, AccountBalance Hex ftm addr = (None, Some e)) /\
  (is_hex_quantity nonce = false ->
   exists e, AccountNonce Hex ftm addr = (0, Some e)) /\
  (forall count, AccountNonce Hex ftm addr = (count, None) ->
   0 <= count < 2 ^ 64).
Proof.
  intros Hbal Hnonce.
  assert (Hb : forall v,
             AccountBalance Hex ftm addr = (Some v, None) <->
             hexutil.DecodeBig balance = (Some v, None)).
  { intros v. unfold AccountBalance. rewrite Hbal.
    destruct (hexutil.DecodeBig balance) as [r [e|]]; split; intros H;
      try discriminate H; exact H. }
  assert (Hn : forall count,
             AccountNonce Hex ftm addr = (count, None) <->
             hexutil.DecodeUint64 nonce = (count, None)).
  { intros count. unfold AccountNonce. rewrite Hnonce.
    destruct (hexutil.DecodeUint64 nonce) as [r [e|]]; split; intros H;
      try discriminate H; exact H. }
  assert (Hberr : (forall v, hexutil.DecodeBig balance <> (Some v, None)) ->
                  exists e, AccountBalance Hex ftm addr = (None, Some e)).
  { intros Hno. unfold AccountBalance. rewrite Hbal.
    destruct (DecodeBig_value_or_error balance) as [[v Hv]|[e ->]];
      [destruct (Hno v Hv) | eauto]. }
  assert (Hnerr : (forall v, hexutil.DecodeUint64 nonce <> (v, None)) ->
                  exists e, AccountNonce Hex ftm addr = (0, Some e)).
  { intros Hno. unfold AccountNonce. rewrite Hnonce.
    destruct (hexutil.DecodeUint64 nonce) as [v [e|]] eqn:Hd; [eauto|].
    destruct (Hno v eq_refl). }
  split; [|split; [|split; [|split; [|split; [|split; [|split; [|split]]]]]]].
  - intros v. rewrite Hb. apply DecodeBig_canonical.
  - intros count. rewrite Hn. apply DecodeUint64_canonical.
  - intros ->. apply Hb. vm_compute. reflexivity.
  - intros ->. apply Hn. vm_compute. reflexivity.
  - intros Hbad. apply Hberr. intros v Hv.
    apply DecodeBig_canonical in Hv. destruct Hv as (Hcan & Hlen & _).
    destruct Hbad as [Hbad|Hbad]; [congruence | lia].
  - intros Hbad. apply Hnerr. intros v Hv.
    apply DecodeUint64_canonical in Hv. destruct Hv as (Hcan & Hlt & _).
    destruct Hbad as [Hbad|Hbad]; [congruence | lia].
  - intros Hq. apply Hberr. intros v Hv.
    destruct (DecodeBig_malformed balance Hq) as [e He]. congruence.
  - intros Hq. apply Hnerr. intros v Hv.
    destruct (DecodeUint64_malformed nonce Hq) as (w & e & He). congruence.
  - intros count Hc. apply Hn in Hc. exact (DecodeUint64_range nonce count Hc).
Qed.

Lemma Account_answers_decode_witness :
  AccountBalance Hex_stub (bridge_on (node "0x1b1ae4d6e2ef500000" "0x5")) 7
    = (Some (500 * 10 ^ 18), None) /\
  AccountNonce Hex_stub (bridge_on (node "0x1b1ae4d6e2ef500000" "0x5")) 7
    = (5, None).
Proof.
  destruct (Account_answers_decode Hex_stub
              (bridge_on (node "0x1b1ae4d6e2ef500000" "0x5")) 7
              "0x1b1ae4d6e2ef500000" "0x5" eq_refl eq_refl)
    as (_ & _ & Hb & Hn & _).
  split; [apply Hb | apply Hn]; reflexivity.
Defined.

(** Answers that are refused: no prefix, no digit, a character that is no
    digit. *)
Example AccountBalance_malformed_answers :
  fst (AccountBalance Hex_stub (bridge_on (node "1b1ae4d6" "0x5")) 7) = None /\
  fst (AccountBalance Hex_stub (bridge_on (node "0x" "0x5")) 7) = None /\
  fst (AccountBalance Hex_stub (bridge_on (node "0x1g" "0x5")) 7) = None /\
  snd (AccountNonce Hex_stub (bridge_on (node "0x0" "0xzz")) 7)
    = Some hexutil.ErrSyntax.
Proof. repeat split. Qed.

(** * Further properties of the code *)

Import Quantity.

(** ** The decimals count in closed form *)

Lemma iter_div10_pow (n : nat) : forall v,
  0 <= v -> Nat.iter n div10 v = v / 10 ^ Z.of_nat n.
Proof.
  induction n as [|n IH]; intros v Hv.
  - simpl. rewrite Z.div_1_r. reflexivity.
  - rewrite iter_div10_S, IH by (unfold div10; apply Z.div_pos; lia).
    unfold div10. rewrite Z.div_div by lia.
    rewrite Nat2Z.inj_succ, Z.pow_succ_r by lia. reflexivity.
Qed.

Lemma div_le_1_iff (v p : Z) : 0 < p -> (v / p <= 1 <-> v < 2 * p).
Proof.
  intros Hp. split; intros H.
  - apply Z.nle_gt. intros Hge.
    assert (2 <= v / p) by (apply Z.div_le_lower_bound; lia). lia.
  - assert (v / p < 2) by (apply Z.div_lt_upper_bound; lia). lia.
Qed.

(** [n] divisions bring [v] down to at most 1, and fewer do not, exactly
    when [v] lies below twice the [n]-th power of ten and not below twice
    the one before. *)
Lemma counts_divisions_closed (v : Z) (n : nat) :
  0 <= v ->
  counts_divisions v n <->
  v < 2 * 10 ^ Z.of_nat n /\ (n = 0%nat \/ 2 * 10 ^ (Z.of_nat n - 1) <= v).
Proof.
  intros Hv. unfold counts_divisions. rewrite iter_div10_pow by exact Hv.
  rewrite div_le_1_iff by (apply Z.pow_pos_nonneg; lia).
  split; intros [Hlt Hall]; (split; [exact Hlt|]).
  - destruct n as [|n]; [left; reflexivity|right].
    specialize (Hall n (Nat.lt_succ_diag_r n)).
    rewrite iter_div10_pow in Hall by exact Hv.
    replace (Z.of_nat (S n) - 1) with (Z.of_nat n) by lia.
    assert (Hp : 0 < 10 ^ Z.of_nat n) by (apply Z.pow_pos_nonneg; lia).
    apply Z.nlt_ge. intros Hsmall.
    apply (div_le_1_iff v _ Hp) in Hsmall. lia.
  - intros k Hk. rewrite iter_div10_pow by exact Hv.
    destruct Hall as [->|Hall]; [lia|].
    assert (Hp : 0 < 10 ^ Z.of_nat k) by (apply Z.pow_pos_nonneg; lia).
    apply Z.nle_gt. intros Hle. apply (div_le_1_iff v _ Hp) in Hle.
    assert (10 ^ Z.of_nat k <= 10 ^ (Z.of_nat n - 1))
      by (apply Z.pow_le_mono_r; lia).
    lia.
Qed.

Lemma counts_divisions_uint64_bound (v : Z) (n : nat) :
  0 <= v < 2 ^ 64 -> counts_divisions v n -> (n <= 19)%nat.
Proof.
  intros Hv [_ Hall].
  destruct (le_lt_dec n 19) as [Hle|Hgt]; [exact Hle|].
  specialize (Hall 19%nat Hgt). rewrite iter_div10_pow in Hall by lia.
  assert (v / 10 ^ Z.of_nat 19 <= 1); [|lia].
  apply div_le_1_iff; [reflexivity|].
  change (2 * 10 ^ Z.of_nat 19) with 20000000000000000000.
  change (2 ^ 64) with 18446744073709551616 in Hv. lia.
Qed.

Lemma big_Uint64_range (v : Z) : 0 <= big_Uint64 v < 2 ^ 64.
Proof. unfold big_Uint64. apply Z.mod_pos_bound. lia. Qed.

(** X1.  Whatever the digits-correction getter delivers (a value of any
    size or sign, nil, or an error), the count pullDefiDecimalCorrection
    returns lies between 0 and 19: the int32 counter never wraps and is
    never negative. *)
Theorem pullDefiDecimalCorrection_bounds (con : DefiFMintMinter) :
  0 <= fst (pullDefiDecimalCorrection con) <= 19.
Proof.
  destruct (FMintFeeDigitsCorrection con None) as [[v|] [e|]] eqn:Hget;
    try (unfold pullDefiDecimalCorrection, pullDefiConfigValue; rewrite Hget;
         simpl; lia).
  destruct (pullDefiDecimalCorrection_value con v Hget) as (n & _ & -> & Hcnt).
  simpl.
  pose proof (counts_divisions_uint64_bound _ n (big_Uint64_range v) Hcnt).
  lia.
Qed.

(** X2.  For a fetched value [v] in the uint64 range the count is [n]
    exactly when [v < 2 * 10^n] and, for [n > 0], [2 * 10^(n-1) <= v]: the
    count is 0 for 0 and 1, and it steps up at 2, 20, 200, ..., not at the
    powers of ten. *)
Theorem pullDefiDecimalCorrection_closed_form
    (con : DefiFMintMinter) (v : Z) (n : nat) :
  FMintFeeDigitsCorrection con None = (Some v, None) ->
  0 <= v < 2 ^ 64 ->
  pullDefiDecimalCorrection con = (Z.of_nat n, None) <->
  v < 2 * 10 ^ Z.of_nat n /\ (n = 0%nat \/ 2 * 10 ^ (Z.of_nat n - 1) <= v).
Proof.
  intros Hget Hv.
  destruct (pullDefiDecimalCorrection_value con v Hget) as (m & _ & Hres & Hcnt).
  rewrite big_Uint64_nonneg, Z.mod_small in Hcnt by lia.
  rewrite <- counts_divisions_closed by lia. rewrite Hres. split.
  - intros [= Heq]. apply Nat2Z.inj in Heq. subst m. exact Hcnt.
  - intros Hn. rewrite (counts_divisions_unique v n m Hn Hcnt). reflexivity.
Qed.

Lemma pullDefiDecimalCorrection_closed_form_witness :
  pullDefiDecimalCorrection (minter_with_correction 25) = (2, None).
Proof.
  apply (pullDefiDecimalCorrection_closed_form
           (minter_with_correction 25) 25 2).
  - reflexivity.
  - lia.
  - split; [reflexivity | right; discriminate].
Defined.

(** X3.  On a power of ten up to 10^19, the largest below 2^64, the count
    is the exponent. *)
Theorem pullDefiDecimalCorrection_power_of_ten
    (con : DefiFMintMinter) (k : nat) :
  (k <= 19)%nat ->
  FMintFeeDigitsCorrection con None = (Some (10 ^ Z.of_nat k), None) ->
  pullDefiDecimalCorrection con = (Z.of_nat k, None).
Proof.
  intros Hk Hget.
  assert (Hrange : 0 <= 10 ^ Z.of_nat k < 2 ^ 64).
  { split; [apply Z.pow_nonneg; lia|].
    apply Z.le_lt_trans with (10 ^ 19); [apply Z.pow_le_mono_r; lia|].
    reflexivity. }
  destruct (pullDefiDecimalCorrection_value con _ Hget) as (m & _ & Hres & Hcnt).
  rewrite big_Uint64_nonneg, Z.mod_small in Hcnt by lia.
  rewrite Hres. f_equal. f_equal.
  apply (counts_divisions_unique (10 ^ Z.of_nat k)); [exact Hcnt|].
  apply counts_divisions_closed; [lia|].
  assert (0 < 10 ^ Z.of_nat k) by (apply Z.pow_pos_nonneg; lia).
  split; [lia|].
  destruct k as [|k]; [left; reflexivity|right].
  replace (Z.of_nat (S k) - 1) with (Z.of_nat k) by lia.
  rewrite Nat2Z.inj_succ, Z.pow_succ_r by lia.
  assert (0 < 10 ^ Z.of_nat k) by (apply Z.pow_pos_nonneg; lia). lia.
Qed.

Lemma pullDefiDecimalCorrection_power_of_ten_witness :
  pullDefiDecimalCorrection (minter_with_correction (10 ^ 19)) = (19, None).
Proof.
  apply (pullDefiDecimalCorrection_power_of_ten
           (minter_with_correction (10 ^ 19)) 19).
  - lia.
  - reflexivity.
Defined.

(** ** What the range loop writes *)

Lemma DefiSettings_ext (a b : types.DefiSettings) :
  types.FMintContract a = types.FMintContract b ->
  types.FMintAddressProvider a = types.FMintAddressProvider b ->
  types.FMintTokenRegistry a = types.FMintTokenRegistry b ->
  types.FMintRewardDistribution a = types.FMintRewardDistribution b ->
  types.FMintCollateralPool a = types.FMintCollateralPool b ->
  types.FMintDebtPool a = types.FMintDebtPool b ->
  types.PriceOracleAggregate a = types.PriceOracleAggregate b ->
  (forall ref, load ref a = load ref b) ->
  types.Decimals a = types.Decimals b ->
  a = b.
Proof.
  destruct a, b; simpl. intros -> -> -> -> -> -> -> Hload ->.
  pose proof (Hload ref_MintFee4) as H1.
  pose proof (Hload ref_MinCollateralRatio4) as H2.
  pose proof (Hload ref_RewardCollateralRatio4) as H3.
  simpl in H1, H2, H3. subst. reflexivity.
Qed.

Lemma pull_range_Decimals (entries : list (Slot * Loader)) :
  forall ds, types.Decimals (fst (pull_range entries ds)) = types.Decimals ds.
Proof.
  induction entries as [|[ref fn] rest IH]; intros ds; simpl.
  - reflexivity.
  - destruct (pullDefiConfigValue fn) as [val [e|]]; simpl.
    + reflexivity.
    + apply (IH (store ref val ds)).
Qed.

(** After a part that succeeds the loop goes on with the rest. *)
Lemma pull_range_app (pre rest : list (Slot * Loader)) :
  forall ds,
    first_error (map snd pre) = None ->
    pull_range (pre ++ rest) ds = pull_range rest (fst (pull_range pre ds)).
Proof.
  induction pre as [|[ref fn] pre IH]; intros ds Hok; simpl in *.
  - reflexivity.
  - destruct (pullDefiConfigValue fn) as [val [e|]]; simpl in *;
      [discriminate Hok|].
    apply IH, Hok.
Qed.

(** Two enumerations of the same entries, all of which load, leave the same
    record. *)
Lemma pull_range_success_perm (l1 l2 : list (Slot * Loader))
    (ds : types.DefiSettings) :
  l1 ≡ₚ l2 -> NoDup (map fst l1) ->
  first_error (map snd l1) = None ->
  pull_range l2 ds = pull_range l1 ds.
Proof.
  intros Hperm Hnd1 Hok1.
  assert (Hnd2 : NoDup (map fst l2)).
  { rewrite <- Hperm. exact Hnd1. }
  assert (Hok2 : first_error (map snd l2) = None).
  { apply (first_error_perm_None (map snd l1)); [|exact Hok1].
    apply Permutation_map, Hperm. }
  apply injective_projections.
  - pose proof (pull_range_addresses l1 ds) as A1.
    pose proof (pull_range_addresses l2 ds) as A2. simpl in A1, A2.
    destruct A1 as (a1 & a2 & a3 & a4 & a5 & a6 & a7).
    destruct A2 as (b1 & b2 & b3 & b4 & b5 & b6 & b7).
    apply DefiSettings_ext; try congruence.
    + intros ref.
      destruct (decide (ref ∈ map fst l1)) as [Hin|Hnin].
      * apply list_elem_of_fmap in Hin. destruct Hin as ([r fn] & -> & Hin).
        simpl.
        rewrite (pull_range_stores l1 ds r fn Hnd1 Hok1 Hin).
        apply (pull_range_stores l2 ds r fn Hnd2 Hok2).
        rewrite <- Hperm. exact Hin.
      * rewrite (pull_range_untouched l1 ds ref Hnin).
        apply pull_range_untouched. rewrite <- Hperm. exact Hnin.
    + rewrite !pull_range_Decimals. reflexivity.
  - rewrite !pull_range_error, Hok1, Hok2. reflexivity.
Qed.

(** X4.  A failing run of pullSetOfDefiConfigValues leaves the destination
    partly written: the slots visited before the failing loader hold what
    their loaders returned, the failing loader's slot is overwritten with
    zero, and the slots that were still to come keep their old content. *)
Theorem pullSetOfDefiConfigValues_partial_write
    (rt : MapRange) (loaders : tConfigItemsLoaders) (ds : types.DefiSettings)
    (pre post : list (Slot * Loader)) (ref : Slot) (fn : Loader) (e : error) :
  range rt loaders = pre ++ (ref, fn) :: post ->
  Forall succeeds (map snd pre) ->
  snd (pullDefiConfigValue fn) = Some e ->
  let ds' := fst (pullSetOfDefiConfigValues rt loaders ds) in
  snd (pullSetOfDefiConfigValues rt loaders ds) = Some e /\
  load ref ds' = 0 /\
  (forall r f, (r, f) ∈ pre -> load r ds' = fst (pullDefiConfigValue f)) /\
  (forall r f, (r, f) ∈ post -> load r ds' = load r ds).
Proof.
  intros Hrange Hpre Hfn ds'. subst ds'.
  apply first_error_None in Hpre.
  pose proof (range_keys_NoDup rt loaders) as Hnd.
  unfold pullSetOfDefiConfigValues. rewrite Hrange in *.
  rewrite (pull_range_app pre _ ds Hpre).
  rewrite map_app in Hnd. simpl in Hnd.
  apply NoDup_app in Hnd as (Hnd_pre & Hdisj & Hnd_rest).
  apply NoDup_cons in Hnd_rest as [Hfresh Hnd_post].
  destruct (pullDefiConfigValue_cases fn) as [(v & _ & Hv)|(e' & He' & _)];
    [rewrite Hv in Hfn; discriminate Hfn|].
  rewrite He' in Hfn. injection Hfn as ->.
  simpl. rewrite He'. simpl. repeat split.
  - rewrite load_store, decide_True by reflexivity. reflexivity.
  - intros r f Hin. rewrite load_store.
    assert (Hr : r ∈ map fst pre).
    { apply list_elem_of_fmap. exists (r, f). split; [reflexivity|exact Hin]. }
    destruct (decide (ref = r)) as [->|Hne].
    + exfalso. apply (Hdisj r Hr). apply elem_of_cons. left. reflexivity.
    + apply (pull_range_stores pre ds r f Hnd_pre Hpre Hin).
  - intros r f Hin. rewrite load_store.
    assert (Hr : r ∈ map fst post).
    { apply list_elem_of_fmap. exists (r, f). split; [reflexivity|exact Hin]. }
    destruct (decide (ref = r)) as [->|Hne]; [contradiction|].
    apply pull_range_untouched. intros Hpre_r.
    apply (Hdisj r Hpre_r). apply elem_of_cons. right. exact Hr.
Qed.

Lemma pullSetOfDefiConfigValues_partial_write_witness :
  let loaders :=
    config_loaders
      (minter (returns_value 25) (returns_error "ratio unavailable")
              (returns_value 50000) (returns_value 10000)) in
  let ds :=
    store ref_MinCollateralRatio4 7
      (store ref_MintFee4 8
         (new_container (fMintCfg (bridge (minter_with_correction 10000))))) in
  let ds' := fst (pullSetOfDefiConfigValues rt_forward loaders ds) in
  load ref_RewardCollateralRatio4 ds' = 50000 /\
  load ref_MinCollateralRatio4 ds' = 0 /\
  load ref_MintFee4 ds' = 8.
Proof.
  intros loaders ds ds'.
  destruct (pullSetOfDefiConfigValues_partial_write rt_forward loaders ds
              [(ref_RewardCollateralRatio4, returns_value 50000)]
              [(ref_MintFee4, returns_value 25)]
              ref_MinCollateralRatio4 (returns_error "ratio unavailable")
              (errorString "ratio unavailable"))
    as (_ & Hzero & Hpre & Hpost).
  - reflexivity.
  - repeat constructor.
  - reflexivity.
  - split; [|split].
    + apply (Hpre ref_RewardCollateralRatio4 (returns_value 50000)).
      apply elem_of_cons. left. reflexivity.
    + exact Hzero.
    + apply (Hpost ref_MintFee4 (returns_value 25)).
      apply elem_of_cons. left. reflexivity.
Defined.

(** X5.  When a run of pullSetOfDefiConfigValues succeeds, every run over
    the same map and destination succeeds and leaves the same record,
    whatever the order in which the map is visited. *)
Theorem pullSetOfDefiConfigValues_success_ignores_order
    (rt1 rt2 : MapRange) (loaders : tConfigItemsLoaders)
    (ds : types.DefiSettings) :
  snd (pullSetOfDefiConfigValues rt1 loaders ds) = None ->
  pullSetOfDefiConfigValues rt2 loaders ds
  = pullSetOfDefiConfigValues rt1 loaders ds.
Proof.
  unfold pullSetOfDefiConfigValues. rewrite pull_range_error. intros Hok.
  apply pull_range_success_perm.
  - rewrite (range_enumerates rt1), (range_enumerates rt2). reflexivity.
  - apply range_keys_NoDup.
  - exact Hok.
Qed.

Lemma pullSetOfDefiConfigValues_success_ignores_order_witness :
  let loaders := config_loaders (minter_with_correction 10000) in
  let ds := new_container (fMintCfg (bridge (minter_with_correction 10000))) in
  pullSetOfDefiConfigValues rt_backward loaders ds
  = pullSetOfDefiConfigValues rt_forward loaders ds.
Proof.
  intros loaders ds.
  apply pullSetOfDefiConfigValues_success_ignores_order.
  reflexivity.
Defined.

(** X6.  pullSetOfDefiConfigValues writes through the keys of its map and
    nowhere else: whether it succeeds or fails, a slot that is no key keeps
    its content, and so do the seven addresses and the decimals. *)
Theorem pullSetOfDefiConfigValues_frame
    (rt : MapRange) (loaders : tConfigItemsLoaders) (ds : types.DefiSettings) :
  let ds' := fst (pullSetOfDefiConfigValues rt loaders ds) in
  (forall ref, loaders !! ref = None -> load ref ds' = load ref ds) /\
  types.Decimals ds' = types.Decimals ds /\
  types.FMintContract ds' = types.FMintContract ds /\
  types.FMintAddressProvider ds' = types.FMintAddressProvider ds /\
  types.FMintTokenRegistry ds' = types.FMintTokenRegistry ds /\
  types.FMintRewardDistribution ds' = types.FMintRewardDistribution ds /\
  types.FMintCollateralPool ds' = types.FMintCollateralPool ds /\
  types.FMintDebtPool ds' = types.FMintDebtPool ds /\
  types.PriceOracleAggregate ds' = types.PriceOracleAggregate ds.
Proof.
  intros ds'. subst ds'. unfold pullSetOfDefiConfigValues.
  split; [|split].
  - intros ref Hnone. apply pull_range_untouched. intros Hin.
    apply list_elem_of_fmap in Hin. destruct Hin as ([r fn] & -> & Hin).
    rewrite (range_enumerates rt) in Hin.
    apply elem_of_map_to_list in Hin. simpl in Hnone. congruence.
  - apply pull_range_Decimals.
  - apply (pull_range_addresses (range rt loaders) ds).
Qed.

Lemma pullSetOfDefiConfigValues_frame_witness :
  let ds :=
    store ref_MintFee4 8
      (new_container (fMintCfg (bridge (minter_with_correction 10000)))) in
  load ref_MintFee4
    (fst (pullSetOfDefiConfigValues rt_backward
            {[ ref_MinCollateralRatio4 := returns_error "ratio unavailable" ]}
            ds))
  = 8.
Proof.
  intros ds.
  apply (proj1 (pullSetOfDefiConfigValues_frame rt_backward
                  {[ ref_MinCollateralRatio4 := returns_error "ratio unavailable" ]}
                  ds)).
  reflexivity.
Defined.

(** ** DefiConfiguration as a whole *)

(** The four ways a run can end. *)
Lemma DefiConfiguration_cases (rt : MapRange) (ftm : FtmBridge) :
  (fMintMinterContract (fMintCfg ftm) = (None, None) /\
   DefiConfiguration rt ftm = Panics) \/
  (exists e, snd (fMintMinterContract (fMintCfg ftm)) = Some e /\
     DefiConfiguration rt ftm = Returns (None, Some e)) \/
  (exists contract e,
     fMintMinterContract (fMintCfg ftm) = (Some contract, None) /\
     first_error (visit_order rt contract) = Some e /\
     DefiConfiguration rt ftm = Returns (None, Some e)) \/
  (exists contract ds,
     fMintMinterContract (fMintCfg ftm) = (Some contract, None) /\
     first_error (visit_order rt contract) = None /\
     DefiConfiguration rt ftm = Returns (Some ds, None)).
Proof.
  destruct (fMintMinterContract (fMintCfg ftm)) as [[c|] [e|]] eqn:Hc.
  - right; left. exists e. split; [reflexivity|].
    apply DefiConfiguration_contract_error. rewrite Hc. reflexivity.
  - rewrite (DefiConfiguration_first_error rt ftm c Hc).
    destruct (first_error (visit_order rt c)) as [e|] eqn:He.
    + right; right; left. exists c, e. auto.
    + right; right; right. eexists c, _. auto.
  - right; left. exists e. split; [reflexivity|].
    apply DefiConfiguration_contract_error. rewrite Hc. reflexivity.
  - left. split; [reflexivity|]. unfold DefiConfiguration. rewrite Hc.
    reflexivity.
Qed.

Lemma succeeds_value (fn : Loader) :
  succeeds fn ->
  exists v, fn None = (Some v, None) /\ pullDefiConfigValue fn = (v, None).
Proof.
  unfold succeeds. intros H.
  destruct (pullDefiConfigValue_cases fn) as [(v & Hv & Hp)|(e & Hp & _)].
  - exists v. split; assumption.
  - rewrite Hp in H. discriminate H.
Qed.

Lemma range_loaders_declared (rt : MapRange) (contract : DefiFMintMinter) :
  map snd (range rt (config_loaders contract)) ≡ₚ
  [ GetFMintFee4dec contract;
    GetCollateralLowestDebtRatio4dec contract;
    GetRewardEligibilityRatio4dec contract ].
Proof.
  rewrite (range_enumerates rt), config_loaders_entries. reflexivity.
Qed.

(** X7.  With the contract at hand, DefiConfiguration returns a record
    exactly when all four getters deliver a value; the three ratio fields
    of that record are the values the getters delivered and its decimals
    are the count pullDefiDecimalCorrection returns. *)
Theorem DefiConfiguration_succeeds_iff
    (rt : MapRange) (ftm : FtmBridge) (contract : DefiFMintMinter) :
  fMintMinterContract (fMintCfg ftm) = (Some contract, None) ->
  ((exists ds, DefiConfiguration rt ftm = Returns (Some ds, None)) <->
   Forall succeeds (declared_loaders contract)) /\
  (forall ds,
     DefiConfiguration rt ftm = Returns (Some ds, None) ->
     GetFMintFee4dec contract None = (Some (types.MintFee4 ds), None) /\
     GetCollateralLowestDebtRatio4dec contract None
       = (Some (types.MinCollateralRatio4 ds), None) /\
     GetRewardEligibilityRatio4dec contract None
       = (Some (types.RewardCollateralRatio4 ds), None) /\
     pullDefiDecimalCorrection contract = (types.Decimals ds, None)).
Proof.
  intros Hc.
  assert (Hall : (exists ds, DefiConfiguration rt ftm = Returns (Some ds, None))
                 -> Forall succeeds (declared_loaders contract)).
  { intros [ds Hrun].
    rewrite (DefiConfiguration_first_error rt ftm contract Hc) in Hrun.
    destruct (first_error (visit_order rt contract)) eqn:Hok;
      [discriminate Hrun|].
    apply first_error_None in Hok.
    exact (Permutation_Forall (visit_order_declared rt contract) Hok). }
  split.
  - split; [exact Hall|]. intros Hsucc.
    destruct (DefiConfiguration_success rt ftm contract Hc Hsucc)
      as (ds & Hrun & _). exists ds. exact Hrun.
  - intros ds Hrun.
    assert (Hsucc : Forall succeeds (declared_loaders contract))
      by (apply Hall; exists ds; exact Hrun).
    destruct (DefiConfiguration_success rt ftm contract Hc Hsucc)
      as (ds0 & Hrun0 & Hfee & Hlow & Hrew & Hdec).
    rewrite Hrun in Hrun0. injection Hrun0 as <-.
    unfold declared_loaders in Hsucc.
    inversion Hsucc as [|? ? S1 Hs1]; subst.
    inversion Hs1 as [|? ? S2 Hs2]; subst.
    inversion Hs2 as [|? ? S3 Hs3]; subst.
    inversion Hs3 as [|? ? S4 _]; subst.
    destruct (succeeds_value _ S1) as (v1 & G1 & P1).
    destruct (succeeds_value _ S2) as (v2 & G2 & P2).
    destruct (succeeds_value _ S3) as (v3 & G3 & P3).
    rewrite P1 in Hfee. rewrite P2 in Hlow. rewrite P3 in Hrew.
    simpl in Hfee, Hlow, Hrew. rewrite Hfee, Hlow, Hrew, Hdec.
    repeat split; try assumption.
    pose proof (pullDefiDecimalCorrection_error contract) as Herr.
    simpl in Herr. unfold succeeds in S4. rewrite S4 in Herr.
    destruct (pullDefiDecimalCorrection contract) as [d err]. simpl in *.
    subst err. reflexivity.
Qed.

Lemma DefiConfiguration_succeeds_iff_witness :
  exists ds,
    DefiConfiguration rt_backward (bridge (minter_with_correction 10000))
    = Returns (Some ds, None).
Proof.
  apply (proj1 (DefiConfiguration_succeeds_iff rt_backward
                  (bridge (minter_with_correction 10000))
                  (minter_with_correction 10000) eq_refl)).
  repeat constructor.
Defined.

(** X8.  The record DefiConfiguration returns does not depend on the order
    in which the runtime visits the loaders map: a record returned by one
    run is returned by every run. *)
Theorem DefiConfiguration_success_ignores_order
    (rt1 rt2 : MapRange) (ftm : FtmBridge) (ds : types.DefiSettings) :
  DefiConfiguration rt1 ftm = Returns (Some ds, None) ->
  DefiConfiguration rt2 ftm = Returns (Some ds, None).
Proof.
  intros Hrun.
  destruct (DefiConfiguration_cases rt1 ftm)
    as [[Hc Hr]|[(e & Hc & Hr)|[(c & e & Hc & _ & Hr)|(c & ds' & Hc & Hok & Hr)]]];
    rewrite Hr in Hrun; try discriminate Hrun.
  rewrite (DefiConfiguration_first_error rt1 ftm c Hc), Hok in Hr.
  rewrite (DefiConfiguration_first_error rt2 ftm c Hc).
  assert (Hok2 : first_error (visit_order rt2 c) = None).
  { apply (first_error_perm_None (visit_order rt1 c)); [|exact Hok].
    rewrite !visit_order_declared. reflexivity. }
  assert (Heq : pull_range (range rt2 (config_loaders c))
                  (new_container (fMintCfg ftm))
                = pull_range (range rt1 (config_loaders c))
                    (new_container (fMintCfg ftm))).
  { apply pull_range_success_perm.
    - rewrite (range_enumerates rt1), (range_enumerates rt2). reflexivity.
    - apply range_keys_NoDup.
    - unfold visit_order in Hok. rewrite first_error_app in Hok.
      destruct (first_error (map snd (range rt1 (config_loaders c))));
        [discriminate Hok | reflexivity]. }
  unfold pullSetOfDefiConfigValues in *. rewrite Hok2, Heq, Hr. exact Hrun.
Qed.

Lemma DefiConfiguration_success_ignores_order_witness :
  exists ds,
    DefiConfiguration rt_forward (bridge (minter_with_correction 10000))
    = Returns (Some ds, None) /\
    DefiConfiguration rt_backward (bridge (minter_with_correction 10000))
    = Returns (Some ds, None).
Proof.
  eexists. split; [vm_compute; reflexivity|].
  apply (DefiConfiguration_success_ignores_order rt_forward rt_backward).
  vm_compute; reflexivity.
Defined.

(** X9.  DefiConfiguration panics exactly when [fMintMinterContract] hands
    back neither a contract nor an error; when it returns, it returns a
    record or an error, never both and never neither. *)
Theorem DefiConfiguration_record_or_error (rt : MapRange) (ftm : FtmBridge) :
  (DefiConfiguration rt ftm = Panics <->
   fMintMinterContract (fMintCfg ftm) = (None, None)) /\
  (forall record err,
     DefiConfiguration rt ftm = Returns (record, err) ->
     (record = None /\ err <> None) \/ (record <> None /\ err = None)).
Proof.
  destruct (DefiConfiguration_cases rt ftm)
    as [[Hc Hr]|[(e & Hc & Hr)|[(c & e & Hc & _ & Hr)|(c & ds & Hc & _ & Hr)]]];
    rewrite Hr; split.
  - split; [intros _; exact Hc | reflexivity].
  - intros record err H. discriminate H.
  - split; [intros H; discriminate H|].
    intros H. rewrite H in Hc. discriminate Hc.
  - intros record err [= <- <-]. left. split; [reflexivity | discriminate].
  - split; [intros H; discriminate H|].
    intros H. rewrite H in Hc. discriminate Hc.
  - intros record err [= <- <-]. left. split; [reflexivity | discriminate].
  - split; [intros H; discriminate H|].
    intros H. rewrite H in Hc. discriminate Hc.
  - intros record err [= <- <-]. right. split; [discriminate | reflexivity].
Qed.

Lemma DefiConfiguration_record_or_error_witness :
  DefiConfiguration rt_forward
    {| rpc := node "0x0" "0x0";
       fMintCfg :=
         {| addressProvider := 0;
            fMintMinterContract := (None, None);
            mustContractAddress := common.HexToAddress |} |}
  = Panics.
Proof.
  apply (proj1 (DefiConfiguration_record_or_error rt_forward _)).
  reflexivity.
Defined.

(** X10.  The digits correction is loaded last: when one of the three ratio
    getters fails, the error returned is that of a failing ratio getter,
    whatever the digits-correction getter would do; its own error is
    returned only when the three ratio getters have all delivered. *)
Theorem DefiConfiguration_ratio_errors_first
    (rt : MapRange) (ftm : FtmBridge) (contract : DefiFMintMinter) :
  fMintMinterContract (fMintCfg ftm) = (Some contract, None) ->
  let ratios :=
    [ GetFMintFee4dec contract;
      GetCollateralLowestDebtRatio4dec contract;
      GetRewardEligibilityRatio4dec contract ] in
  (Exists fails ratios ->
   exists fn e,
     fn ∈ ratios /\ snd (pullDefiConfigValue fn) = Some e /\
     DefiConfiguration rt ftm = Returns (None, Some e)) /\
  (Forall succeeds ratios ->
   forall e,
     snd (pullDefiConfigValue (FMintFeeDigitsCorrection contract)) = Some e ->
     DefiConfiguration rt ftm = Returns (None, Some e)).
Proof.
  intros Hc ratios. subst ratios.
  rewrite (DefiConfiguration_first_error rt ftm contract Hc).
  unfold visit_order. rewrite first_error_app.
  pose proof (range_loaders_declared rt contract) as Hperm.
  split.
  - intros Hfail.
    apply (Permutation_Exists (symmetry Hperm)) in Hfail.
    destruct (first_error_Exists _ Hfail) as [e He]. rewrite He.
    destruct (first_error_split _ e He) as (pre & fn & post & Hsplit & _ & Hfn).
    exists fn, e. repeat split; [|exact Hfn].
    rewrite <- Hperm, Hsplit. apply elem_of_app. right.
    apply elem_of_cons. left. reflexivity.
  - intros Hsucc e He.
    apply (Permutation_Forall (symmetry Hperm)) in Hsucc.
    apply first_error_None in Hsucc. rewrite Hsucc. simpl. rewrite He.
    reflexivity.
Qed.

Lemma DefiConfiguration_ratio_errors_first_witness :
  DefiConfiguration rt_backward
    (bridge (minter (returns_value 25) (returns_value 30000)
                    (returns_value 50000) returns_nil))
  = Returns (None, Some (Errorf "defi config value not available")).
Proof.
  apply (proj2 (DefiConfiguration_ratio_errors_first rt_backward
                  (bridge (minter (returns_value 25) (returns_value 30000)
                                  (returns_value 50000) returns_nil))
                  (minter (returns_value 25) (returns_value 30000)
                          (returns_value 50000) returns_nil)
                  eq_refl)).
  - repeat constructor.
  - reflexivity.
Defined.

(** ** The answers AccountBalance and AccountNonce accept *)

(** X11.  When the node answers the balance request, AccountBalance returns
    a value exactly when the answer is a canonical quantity (prefix 0x or
    0X, at least one hexadecimal digit, no leading zero) of at most 64
    digits, and the value is the number the digits denote; every other
    answer is refused. *)
Theorem AccountBalance_returns_canonical_value
    (Hex : common.Address -> string) (ftm : FtmBridge) (addr : common.Address)
    (answer : string) (v : Z) :
  Call (rpc ftm) "ftm_getBalance" [Hex addr; "latest"%string]
    = (answer, None) ->
  AccountBalance Hex ftm addr = (Some v, None) <->
  canonical_quantity answer = true /\
  len (digits_of answer) <= 64 /\
  v = hex_value (digits_of answer).
Proof.
  intros Hcall. unfold AccountBalance. rewrite Hcall.
  unfold hexutil.DecodeBig.
  destruct (hexutil.checkNumber answer) as [raw [e|]] eqn:Hc.
  - split; [intros H; discriminate H|].
    intros (Hcan & _ & _).
    destruct (proj2 (checkNumber_canonical answer (digits_of answer)))
      as [Hc' _]; [split; [exact Hcan | reflexivity]|].
    rewrite Hc in Hc'. discriminate Hc'.
  - destruct (all_hex raw) eqn:Hhex.
    + destruct (proj1 (checkNumber_canonical answer raw)) as [Hcan ->];
        [split; assumption|].
      rewrite (decodeNibbles_value _ 0 Hhex). simpl (0 * _ + _).
      destruct (Z.ltb_spec 64 (len (digits_of answer))) as [Hlong|Hshort].
      * split; [intros H; discriminate H | intros (_ & Hle & _); lia].
      * split.
        -- intros [= <-]. auto.
        -- intros (_ & _ & ->). reflexivity.
    + rewrite (all_hex_decodeNibbles raw Hhex).
      split.
      * destruct (64 <? len raw); intros H; discriminate H.
      * intros (Hcan & _ & _).
        destruct (proj2 (checkNumber_canonical answer (digits_of answer)))
          as [Hc' Hh]; [split; [exact Hcan | reflexivity]|].
        rewrite Hc in Hc'. injection Hc' as ->. congruence.
Qed.

Lemma AccountBalance_returns_canonical_value_witness :
  AccountBalance Hex_stub (bridge_on (node "0XfF" "0x5")) 7 = (Some 255, None).
Proof.
  apply (AccountBalance_returns_canonical_value Hex_stub
           (bridge_on (node "0XfF" "0x5")) 7 "0XfF" 255 eq_refl).
  repeat split. vm_compute. discriminate.
Defined.

(** X12.  When the node answers the transaction count request, AccountNonce
    returns a count exactly when the answer is a canonical quantity whose
    value is below 2^64, and the count is that value: a larger count is an
    error, it is not cut down to 64 bits. *)
Theorem AccountNonce_returns_canonical_value
    (Hex : common.Address -> string) (ftm : FtmBridge) (addr : common.Address)
    (answer : string) (v : Z) :
  Call (rpc ftm) "ftm_getTransactionCount" [Hex addr; "latest"%string]
    = (answer, None) ->
  AccountNonce Hex ftm addr = (v, None) <->
  canonical_quantity answer = true /\
  hex_value (digits_of answer) < 2 ^ 64 /\
  v = hex_value (digits_of answer).
Proof.
  intros Hcall. unfold AccountNonce. rewrite Hcall.
  unfold hexutil.DecodeUint64.
  destruct (hexutil.checkNumber answer) as [raw [e|]] eqn:Hc.
  - split; [intros H; discriminate H|].
    intros (Hcan & _ & _).
    destruct (proj2 (checkNumber_canonical answer (digits_of answer)))
      as [Hc' _]; [split; [exact Hcan | reflexivity]|].
    rewrite Hc in Hc'. discriminate Hc'.
  - destruct (all_hex raw) eqn:Hhex.
    + destruct (proj1 (checkNumber_canonical answer raw)) as [Hcan ->];
        [split; assumption|].
      destruct (parseUint16_value (digits_of answer) 0 Hhex) as [Hfit Hover];
        [lia|].
      simpl (0 * _ + _) in Hfit, Hover.
      destruct (Z.lt_ge_cases (hex_value (digits_of answer)) (2 ^ 64))
        as [Hlt|Hge].
      * rewrite (Hfit Hlt). split.
        -- intros [= <-]. auto.
        -- intros (_ & _ & ->). reflexivity.
      * destruct (Hover Hge) as [w ->].
        split; [intros H; discriminate H | intros (_ & Hlt & _); lia].
    + destruct (all_hex_parseUint16 raw Hhex 0) as (w & e & ->).
      split; [intros H; discriminate H|].
      intros (Hcan & _ & _).
      destruct (proj2 (checkNumber_canonical answer (digits_of answer)))
        as [Hc' Hh]; [split; [exact Hcan | reflexivity]|].
      rewrite Hc in Hc'. injection Hc' as ->. congruence.
Qed.

Lemma AccountNonce_returns_canonical_value_witness :
  AccountNonce Hex_stub (bridge_on (node "0x0" "0xffffffffffffffff")) 7
  = (2 ^ 64 - 1, None).
Proof.
  apply (AccountNonce_returns_canonical_value Hex_stub
           (bridge_on (node "0x0" "0xffffffffffffffff")) 7
           "0xffffffffffffffff" (2 ^ 64 - 1) eq_refl).
  repeat split.
Defined.

(** One digit more and the count is refused. *)
Example AccountNonce_refuses_65_bits :
  AccountNonce Hex_stub (bridge_on (node "0x0" "0x10000000000000000")) 7
  = (0, Some hexutil.ErrUint64Range).
Proof. reflexivity. Qed.

(** X13.  AccountBalance returns a value or an error, never both and never
    neither; AccountNonce returns the count 0 with every error; an error of
    the call itself is returned as it is, and the answer is not decoded. *)
Theorem Account_value_or_error
    (Hex : common.Address -> string) (ftm : FtmBridge) (addr : common.Address) :
  (fst (AccountBalance Hex ftm addr) = None <->
   snd (AccountBalance Hex ftm addr) <> None) /\
  (snd (AccountNonce Hex ftm addr) <> None ->
   fst (AccountNonce Hex ftm addr) = 0) /\
  (forall answer err,
     Call (rpc ftm) "ftm_getBalance" [Hex addr; "latest"%string]
       = (answer, Some err) ->
     AccountBalance Hex ftm addr = (None, Some err)) /\
  (forall answer err,
     Call (rpc ftm) "ftm_getTransactionCount" [Hex addr; "latest"%string]
       = (answer, Some err) ->
     AccountNonce Hex ftm addr = (0, Some err)).
Proof.
  unfold AccountBalance, AccountNonce. repeat split.
  - destruct (Call _ _ _) as [answer [e|]]; simpl; [discriminate|].
    unfold hexutil.DecodeBig.
    destruct (hexutil.checkNumber answer) as [raw [e|]]; simpl; [discriminate|].
    destruct (64 <? len raw); simpl; [discriminate|].
    destruct (hexutil.decodeNibbles 0 raw); simpl; [discriminate|discriminate].
  - destruct (Call _ _ _) as [answer [e|]]; simpl; [reflexivity|].
    unfold hexutil.DecodeBig.
    destruct (hexutil.checkNumber answer) as [raw [e|]]; simpl; [reflexivity|].
    destruct (64 <? len raw); simpl; [reflexivity|].
    destruct (hexutil.decodeNibbles 0 raw); simpl; [|reflexivity].
    intros H. contradiction.
  - destruct (Call _ _ _) as [answer [e|]]; simpl; [reflexivity|].
    destruct (hexutil.DecodeUint64 answer) as [v [e|]]; simpl; [reflexivity|].
    intros H. contradiction.
  - intros answer err ->. reflexivity.
  - intros answer err ->. reflexivity.
Qed.

Lemma Account_value_or_error_witness :
  AccountBalance Hex_stub
    (bridge_on {| Call := fun _ _ =>
                    ("0x5"%string, Some (errorString "connection refused")) |})
    7
  = (None, Some (errorString "connection refused")).
Proof.
  apply (proj1 (proj2 (proj2 (Account_value_or_error Hex_stub
                                (bridge_on _) 7)))
           "0x5"%string).
  reflexivity.
Defined.

(** ** Token handles *)

(** X14.  The field resolvers of a handle built by NewErc20Token ask the
    repository about the address in the record the probe returned, not
    about the address that was probed: total supply, balance and allowance
    of the handle are those the root resolvers give for the record's
    address, and logo, total deposit (collateral) and total debt are asked
    for that address too. *)
Theorem token_handle_follows_repository_record
    (R0 : repository.Repository) (R : erc20.Repository)
    (adr : common.Address) (token : resolvers.ERC20Token) :
  resolvers.NewErc20Token R0 adr = Returns (Some token) ->
  exists record,
    repository.Erc20Token R0 adr = (Some record, None) /\
    erc20.TotalSupply R token = erc20.ErcTotalSupply R (types.Address record) /\
    (forall owner,
       erc20.BalanceOf R token owner
       = erc20.ErcTokenBalance R owner (types.Address record)) /\
    (forall owner spender,
       erc20.Allowance R token owner spender
       = erc20.ErcTokenAllowance R (types.Address record) owner spender) /\
    erc20.LogoURL R token = erc20.Erc20LogoURL R (types.Address record) /\
    erc20.TotalDeposit R token
    = erc20.FMintTokenTotalBalance R (types.Address record)
        erc20.DefiTokenTypeCollateral /\
    erc20.TotalDebt R token
    = erc20.FMintTokenTotalBalance R (types.Address record)
        erc20.DefiTokenTypeDebt.
Proof.
  unfold resolvers.NewErc20Token.
  destruct (repository.Erc20Token R0 adr) as [[record|] [e|]];
    intros H; try discriminate H.
  injection H as <-. exists record. repeat split.
Qed.

Lemma token_handle_follows_repository_record_witness :
  erc20.TotalSupply Fixtures_erc20.ledger
    {| resolvers.Erc20Token := {| types.Address := 7 |} |}
  = (1007, None).
Proof.
  destruct (token_handle_follows_repository_record repo_with_token
              Fixtures_erc20.ledger 7
              {| resolvers.Erc20Token := {| types.Address := 7 |} |} eq_refl)
    as (record & Hprobe & Hsupply & _).
  injection Hprobe as <-. rewrite Hsupply. reflexivity.
Defined.
